(** * Verification of [src/utils/helper.ts] (pintar-zonasi)

    A shallow embedding of the utility functions of [helper.ts] and the
    theorems that settle what the specification says about them.

    Conventions of the embedding.
    - A JavaScript string is a [string]: a sequence of code units below 256
      (the Latin-1 range), on which [toLowerCase] is the table JavaScript
      uses for that range.  File names are also taken as they are in
      JavaScript, sequences of UTF-16 code units; there [toLowerCase] is
      the engine's, constrained by what Unicode's case mapping says of the
      strings that lower to ASCII, and on Latin-1 names the two detections
      agree.
    - A JavaScript number is an IEEE 754 binary64 value, Rocq's primitive
      [float], with the kernel's arithmetic; the longitude loop is written
      once over an interface of number operations, so that it can also be
      read over exact rationals.  What is proved of the loop in binary64
      is derived from the kernel's specification of addition, subtraction
      and comparison ([SpecFloat]), with finite numbers counted in units
      of 2^-1074.
    - An object used as a mapping is an association list in the enumeration
      order of its own keys; arrays that are copied and mutated live in a
      heap ([gmap]) addressed by locations.
    - A promise is the trace of reads issued and the way it settles. *)

From Stdlib Require Import ZArith QArith Qabs Qround Lqa Lia Bool List Ascii String.
From Stdlib Require Import Uint63 PrimFloat FloatOps SpecFloat FloatAxioms.
From stdpp Require Import base option list strings gmap.

Set Default Proof Using "Type".
Local Open Scope Z_scope.

(** ** JavaScript string primitives used by the source *)

Module JS.

(** Code unit of a character. *)
Definition code (c : ascii) : N := N_of_ascii c.

(** [String.prototype.toLowerCase] on one code unit of the Latin-1 range:
    A-Z and the accented capitals U+00C0-U+00DE (except the multiplication
    sign U+00D7) move up by 32, everything else is left alone. *)
Definition toLowerChar (c : ascii) : ascii :=
  let n := code c in
  if ((65 <=? n) && (n <=? 90))%N then ascii_of_N (n + 32)
  else if ((192 <=? n) && (n <=? 222) && negb (n =? 215))%N
       then ascii_of_N (n + 32)
       else c.

Fixpoint toLowerCase (s : string) : string :=
  match s with
  | EmptyString => EmptyString
  | String c r => String (toLowerChar c) (toLowerCase r)
  end.

(** [s.lastIndexOf(ch)] for a one-character search string: the index of the
    last occurrence, or -1. *)
Fixpoint lastIndexOf_from (s : string) (ch : ascii) (i found : Z) : Z :=
  match s with
  | EmptyString => found
  | String c r =>
      lastIndexOf_from r ch (i + 1) (if Ascii.eqb c ch then i else found)
  end.

Definition lastIndexOf (s : string) (ch : ascii) : Z :=
  lastIndexOf_from s ch 0 (-1).

(** [s.slice(start)]: a negative start counts from the end (clamped at 0),
    a start past the end gives the empty string. *)
Definition slice (s : string) (start : Z) : string :=
  let len := Z.of_nat (String.length s) in
  let from := if start <? 0 then Z.max (len + start) 0 else Z.min start len in
  substring (Z.to_nat from) (Z.to_nat (len - from)) s.

(** [s.endsWith(suffix)], case-sensitive. *)
Definition endsWith (s suffix : string) : bool :=
  let ls := String.length s in
  let lx := String.length suffix in
  (lx <=? ls)%nat && String.eqb (substring (ls - lx) lx s) suffix.

End JS.

(** ** Files and the spatial file type *)

(** Modelled from the spec: the enum [SpatialFileEnum] of
    [@/types/spatial-file.enum] is not among the sources; the spec gives the
    recognized extensions as [.zip], [.kml], [.geojson] and calls the result
    the matching lowercase tag, so the enum's values are those strings. *)
Inductive SpatialFileEnum := ZIP | KML | GEOJSON.

Definition enum_value (e : SpatialFileEnum) : string :=
  match e with
  | ZIP => ".zip"
  | KML => ".kml"
  | GEOJSON => ".geojson"
  end.

#[global] Instance SpatialFileEnum_eq_dec : EqDecision SpatialFileEnum.
Proof. solve_decision. Defined.

(** A [File]: its name and what a read of its content yields ([None] when
    the read fails). *)
Record File := mkFile { name : string; content : option string }.

(** [getSpatialFileType], lines 17-27. *)
Definition validExtensions : list SpatialFileEnum := [ZIP; KML; GEOJSON].

Definition getSpatialFileType (file : option File) : option SpatialFileEnum :=
  match file with
  | None => None
  | Some f =>
      let fileExtension :=
        JS.toLowerCase (JS.slice (name f) (JS.lastIndexOf (name f) ".")) in
      List.find (fun e => String.eqb (enum_value e) fileExtension) validExtensions
  end.

(** *** What the specification calls the final extension *)

(** The substring from the last ['.'], when there is one. *)
Fixpoint final_extension (s : string) : option string :=
  match s with
  | EmptyString => None
  | String c r =>
      match final_extension r with
      | Some e => Some e
      | None => if Ascii.eqb c "." then Some s else None
      end
  end.

(** The capital of an ASCII small letter; other characters have none. *)
Definition upper_of (c : ascii) : ascii :=
  let n := JS.code c in
  if ((97 <=? n) && (n <=? 122))%N then ascii_of_N (n - 32) else c.

(** [s] is a letter-case variant of the lowercase string [t]: it is [t] with
    some of its letters capitalised. *)
Fixpoint case_variant (s t : string) : Prop :=
  match s, t with
  | EmptyString, EmptyString => True
  | String a s', String b t' => (a = b \/ a = upper_of b) /\ case_variant s' t'
  | _, _ => False
  end.

(** A character that is ASCII and not a capital letter, and the strings
    made of such characters (the enum's values are). *)
Definition plain (b : ascii) : bool :=
  ((JS.code b <? 128) && negb ((65 <=? JS.code b) && (JS.code b <=? 90)))%N.

Fixpoint plain_string (t : string) : bool :=
  match t with
  | EmptyString => true
  | String b t' => plain b && plain_string t'
  end.

(** ** File names as UTF-16 *)

(** A JavaScript string is a sequence of UTF-16 code units; a file name may
    hold any of them. *)
Definition ustring := list N.

(** The code units of a string of the Latin-1 range. *)
Definition units (s : string) : ustring := map JS.code (list_ascii_of_string s).

(** U+002E FULL STOP and U+212A KELVIN SIGN. *)
Definition full_stop : N := 46.
Definition kelvin_sign : N := 8490.

Module JS16.

(** [s.lastIndexOf(ch)] for a one-unit search string: the index of the last
    occurrence, or -1. *)
Fixpoint lastIndexOf_from (s : ustring) (u : N) (i found : Z) : Z :=
  match s with
  | [] => found
  | c :: r => lastIndexOf_from r u (i + 1) (if (c =? u)%N then i else found)
  end.

Definition lastIndexOf (s : ustring) (u : N) : Z := lastIndexOf_from s u 0 (-1).

(** [s.slice(start)]: a negative start counts from the end (clamped at 0),
    a start past the end gives the empty string. *)
Definition slice (s : ustring) (start : Z) : ustring :=
  let len := Z.of_nat (length s) in
  let from := if start <? 0 then Z.max (len + start) 0 else Z.min start len in
  drop (Z.to_nat from) s.

End JS16.

(** A [File] whose name is any UTF-16 string. *)
Record File16 := mkFile16 { name16 : ustring; content16 : option string }.

(** A file with a name of the Latin-1 range, seen as such a file. *)
Definition utf16 (f : File) : File16 := mkFile16 (units (name f)) (content f).

Section Detection16.

(** [String.prototype.toLowerCase] on UTF-16 strings is the engine's: it
    follows Unicode's case mapping, whose tables are not part of the
    program.  What the detection needs of it is [toLowerCase_law] below. *)
Variable toLowerCase : ustring -> ustring.

(** [getSpatialFileType], lines 17-27, on a file with a UTF-16 name;
    [validExtensions.includes] compares strings unit by unit. *)
Definition getSpatialFileType16 (file : option File16) : option SpatialFileEnum :=
  match file with
  | None => None
  | Some f =>
      let fileExtension :=
        toLowerCase (JS16.slice (name16 f) (JS16.lastIndexOf (name16 f) full_stop)) in
      List.find (fun e => bool_decide (units (enum_value e) = fileExtension))
        validExtensions
  end.

End Detection16.

(** The substring from the last full stop, when there is one. *)
Fixpoint final_extension16 (s : ustring) : option ustring :=
  match s with
  | [] => None
  | c :: r =>
      match final_extension16 r with
      | Some e => Some e
      | None => if (c =? full_stop)%N then Some s else None
      end
  end.

(** The ASCII small letters, and the ASCII units that are no capital
    letters (the units of the enum's values are such). *)
Definition small_letter (b : N) : bool := ((97 <=? b) && (b <=? 122))%N.

Definition plain16 (b : N) : bool :=
  ((b <? 128) && negb ((65 <=? b) && (b <=? 90)))%N.

(** [a] is a letter-case variant of the plain unit [b]: [b] itself or, when
    [b] is a small letter, its capital. *)
Definition letter_case_variant (a b : N) : Prop :=
  a = b \/ (small_letter b = true /\ a = (b - 32)%N).

(** The units that [toLowerCase] turns into the plain unit [b]: its
    letter-case variants and, for [k], the Kelvin sign. *)
Definition lowers_to (a b : N) : Prop :=
  letter_case_variant a b \/ (b = 107%N /\ a = kelvin_sign).

(** Unicode's case mapping, as far as strings of plain ASCII units are
    concerned: the strings that [toLowerCase] turns into such a string [t]
    are those that, unit by unit, are made of the units that lower to the
    units of [t].  (No character lowers to the empty string or to several
    ASCII characters, and the Kelvin sign is the one character outside
    ASCII that lowers to an ASCII character.) *)
Definition toLowerCase_law (lower : ustring -> ustring) : Prop :=
  forall s t : ustring,
    forallb plain16 t = true -> (lower s = t <-> Forall2 lowers_to s t).

(** The case mapping on ASCII and the Kelvin sign alone, other units left
    as they are; it stands in for the engine's [toLowerCase] in the
    examples. *)
Definition lower_unit (a : N) : N :=
  if ((65 <=? a) && (a <=? 90))%N then (a + 32)%N
  else if (a =? kelvin_sign)%N then 107%N else a.

Definition ascii_toLowerCase (s : ustring) : ustring := map lower_unit s.

(** The name [a.KML] with the Kelvin sign for its [K], and its final
    extension. *)
Definition kelvin_name : ustring := [97; 46; 8490; 77; 76]%N.
Definition kelvin_extension : ustring := [46; 8490; 77; 76]%N.

(** ** Values, completions and promises *)

(** The values JSON-shaped data is made of.  Numbers are binary64. *)
#[warnings="-register-all"]
Inductive JSValue :=
| JUndefined
| JNull
| JBool (b : bool)
| JNum (x : float)
| JStr (s : string)
| JArr (items : list JSValue)
| JObj (fields : list (string * JSValue)).

(** JavaScript truthiness: the falsy values are [undefined], [null],
    [false], [+0], [-0], [NaN] and the empty string. *)
Definition truthy (v : JSValue) : bool :=
  match v with
  | JUndefined | JNull => false
  | JBool b => b
  | JNum x => negb (PrimFloat.is_zero x || PrimFloat.is_nan x)
  | JStr s => negb (String.eqb s "")
  | JArr _ | JObj _ => true
  end.

(** An object used as a mapping: its own enumerable string keys in
    enumeration order, each with its value. *)
Definition ObjectLiteral := list (string * JSValue).

(** Own-property lookup. *)
Fixpoint own (obj : ObjectLiteral) (key : string) : option JSValue :=
  match obj with
  | [] => None
  | (k, v) :: rest => if String.eqb k key then Some v else own rest key
  end.

(** [key in obj], for a key that [Object.prototype] does not define (none
    of the keys the source asks about is defined there). *)
Definition has (obj : ObjectLiteral) (key : string) : bool :=
  match own obj key with Some _ => true | None => false end.

(** [obj[key]], for a key that is an own property or that
    [Object.prototype] does not define. *)
Definition get (obj : ObjectLiteral) (key : string) : JSValue :=
  match own obj key with Some v => v | None => JUndefined end.

(** [Object.keys(obj)]. *)
Definition keys (obj : ObjectLiteral) : list string := map fst obj.

(** An error object: the constructor's name and the message. *)
Inductive JSError := Error (kind message : string).

(** How an evaluation completes: normally with a value, or by throwing. *)
Inductive Completion (A : Type) :=
| Normal (a : A)
| Throw (e : JSError).
Arguments Normal {A} a.
Arguments Throw {A} e.

Definition bind {A B} (c : Completion A) (k : A -> Completion B) : Completion B :=
  match c with
  | Normal a => k a
  | Throw e => Throw e
  end.

(** [try { body } catch (err) { handler }]. *)
Definition try_catch {A} (body : Completion A) (handler : JSError -> Completion A)
  : Completion A :=
  match body with
  | Normal a => Normal a
  | Throw e => handler e
  end.

(** What a promise is rejected with: a bare string or an error object. *)
Inductive Reason := RString (s : string) | RError (e : JSError).

(** The fate of a promise.  [Pending] is a promise that never settles. *)
Inductive Settled (A : Type) :=
| Resolved (a : A)
| Rejected (r : Reason)
| Pending.
Arguments Resolved {A} a.
Arguments Rejected {A} r.
Arguments Pending {A}.

(** The reads a call issues on files, in order. *)
Inductive IO := ReadAsText (fileName : string) | ReadArrayBuffer (fileName : string).

(** An asynchronous computation: the reads it issued and how it settles. *)
Definition Promise (A : Type) : Type := list IO * Settled A.

(** ** The spatial file loader, lines 29-119 *)

Section Loader.

(** The external collaborators, as the spec treats them: opaque
    capabilities that either produce a value or throw. *)
Variable JSON_parse : string -> Completion JSValue.
Variable Document : Type.
Variable DOMParser_parseFromString : string -> Completion Document.
Variable toGeoJSON_kml : Document -> Completion JSValue.
Variable shp : string -> Completion JSValue.
(** What [arrayBuffer()] rejects with when the file cannot be read. *)
Variable NotReadable : JSError.

(** [reader.onload] of [readGeojsonFile]: parse, resolve, or reject with
    what the parser threw. *)
Definition onload_geojson (fileContent : string) : Settled JSValue :=
  match JSON_parse fileContent with
  | Normal geoJson => Resolved geoJson
  | Throw error => Rejected (RError error)
  end.

(** [readGeojsonFile], lines 29-52.  The reader has no [onerror] handler:
    when the read fails the promise stays pending. *)
Definition readGeojsonFile (inputFile : option File) : Promise JSValue :=
  match inputFile with
  | Some f =>
      if JS.endsWith (name f) ".geojson" then
        ([ReadAsText (name f)],
         match content f with
         | Some fileContent => onload_geojson fileContent
         | None => Pending
         end)
      else ([], Rejected (RString "Please upload a valid .geojson file."))
  | None => ([], Rejected (RString "Please upload a valid .geojson file."))
  end.

Definition onload_kml (fileContent : string) : Settled JSValue :=
  match bind (DOMParser_parseFromString fileContent) toGeoJSON_kml with
  | Normal geoJson => Resolved geoJson
  | Throw error => Rejected (RError error)
  end.

(** [readKmlFile], lines 54-80. *)
Definition readKmlFile (inputFile : option File) : Promise JSValue :=
  match inputFile with
  | Some f =>
      if JS.endsWith (name f) ".kml" then
        ([ReadAsText (name f)],
         match content f with
         | Some fileContent => onload_kml fileContent
         | None => Pending
         end)
      else ([], Rejected (RString "Please upload a valid .kml file."))
  | None => ([], Rejected (RString "Please upload a valid .kml file."))
  end.

(** [readShpInZipFile], lines 82-96. *)
Definition readShpInZipFile (inputFile : option File) : Promise JSValue :=
  match inputFile with
  | Some f =>
      if JS.endsWith (name f) ".zip" then
        ([ReadArrayBuffer (name f)],
         match content f with
         | Some resData =>
             match shp resData with
             | Normal geoJson => Resolved geoJson
             | Throw error => Rejected (RError error)
             end
         | None => Rejected (RError NotReadable)
         end)
      else ([], Rejected (RString "Please upload a valid .zip file."))
  | None => ([], Rejected (RString "Please upload a valid .zip file."))
  end.

(** [const v = await p; resolve(v)] inside [try { } catch (error)
    { reject(error) }]: the outer promise settles as [p] does. *)
Definition await_then_resolve {A} (p : Promise A) : Promise A :=
  match p with
  | (reads, Resolved v) => (reads, Resolved v)
  | (reads, Rejected error) => (reads, Rejected error)
  | (reads, Pending) => (reads, Pending)
  end.

(** [getGeojsonData], lines 98-119. *)
Definition getGeojsonData (inputFile : option File) : Promise JSValue :=
  let spatialFile := getSpatialFileType inputFile in
  if decide (spatialFile = Some GEOJSON) then
    await_then_resolve (readGeojsonFile inputFile)
  else if decide (spatialFile = Some KML) then
    await_then_resolve (readKmlFile inputFile)
  else if decide (spatialFile = Some ZIP) then
    await_then_resolve (readShpInZipFile inputFile)
  else ([], Rejected (RError (Error "Error" "Invalid spatial filetype"))).

End Loader.

(** ** Numbers *)

(** The operations [getMapLibreCoordinate] performs on numbers. *)
Class JSNumber (num : Type) := {
  num_add : num -> num -> num;
  num_sub : num -> num -> num;
  num_abs : num -> num;
  (** [a > b] *)
  num_gt : num -> num -> bool;
  (** an integer literal *)
  num_lit : Z -> num
}.

(** Integer literals as binary64 values (exact below 2^53). *)
Definition float_of_Z (z : Z) : float :=
  match z with
  | Z0 => PrimFloat.zero
  | Zpos _ => PrimFloat.of_uint63 (Uint63.of_Z z)
  | Zneg _ => PrimFloat.opp (PrimFloat.of_uint63 (Uint63.of_Z (- z)))
  end.

(** What the program runs on: IEEE 754 binary64, where every comparison
    with NaN is false. *)
#[global] Instance IEEE : JSNumber float := {
  num_add := PrimFloat.add;
  num_sub := PrimFloat.sub;
  num_abs := PrimFloat.abs;
  num_gt a b := PrimFloat.ltb b a;
  num_lit := float_of_Z
}.


(** The exact value of a finite binary64 number. *)
Definition float_to_Q (x : float) : option Q :=
  match Prim2SF x with
  | S754_zero _ => Some (0 # 1)%Q
  | S754_finite s m e =>
      let mag := if (0 <=? e)%Z then inject_Z (Zpos m * 2 ^ e)
                 else (Zpos m # Pos.pow 2 (Z.to_pos (- e)))%Q in
      Some (if s then Qopp mag else mag)
  | S754_infinity _ | S754_nan => None
  end.

(** ** The coordinate normalizer, lines 121-136 *)

(** Arrays are objects with identity: a location in a heap of arrays. *)
Definition loc := positive.

Section Normalizer.

Context {num : Type} `{JSNumber num}.

Record LngLat := mkLngLat { lng : num; lat : num }.

(** A hit feature: the array [geometry.coordinates] (of a point geometry,
    as the source reads its first element as a number) and [properties]. *)
Record MapGeoJSONFeature := mkFeature {
  geometry_coordinates : loc;
  properties : ObjectLiteral
}.

Record MapMouseEvent := mkEvent {
  lngLat : LngLat;
  features : option (list MapGeoJSONFeature)
}.

(** The object the function returns. *)
Record Picked := mkPicked {
  coordinates : loc;
  picked_properties : ObjectLiteral
}.

(** [while (Math.abs(lng - coordinates[0]) > 180)
      coordinates[0] += lng > coordinates[0] ? 360 : -360],
    run for at most [fuel] evaluations of the condition; the boolean tells
    whether the loop was left.  An absent [coordinates[0]] is [undefined]:
    the difference is NaN and the comparison false.  The assignment writes
    index 0 of an array that has it, so the array never grows. *)
Fixpoint adjust_loop (fuel : nat) (clickLng : num) (c : loc)
  (h : gmap loc (list num)) : gmap loc (list num) * bool :=
  match fuel with
  | O => (h, false)
  | S fuel' =>
      let arr := default [] (h !! c) in
      match arr !! 0%nat with
      | Some c0 =>
          if num_gt (num_abs (num_sub clickLng c0)) (num_lit 180) then
            let delta := if num_gt clickLng c0 then num_lit 360 else num_lit (-360) in
            adjust_loop fuel' clickLng c (<[c := <[0%nat := num_add c0 delta]> arr]> h)
          else (h, true)
      | None => (h, true)
      end
  end.

(** [getMapLibreCoordinate].  The heap is threaded through; the result is
    [None] when the fuel ran out inside the loop, otherwise how the call
    completed: [Normal None] is [return;] (undefined). *)
Definition getMapLibreCoordinate (fuel : nat) (e : MapMouseEvent)
  (h : gmap loc (list num))
  : gmap loc (list num) * option (Completion (option Picked)) :=
  match features e with
  | None => (h, Some (Normal None))
  | Some fs =>
      match fs !! 0%nat with
      | None =>
          (h, Some (Throw (Error "TypeError"
             "Cannot read properties of undefined (reading 'geometry')")))
      | Some f0 =>
          match h !! geometry_coordinates f0 with
          | None =>
              (h, Some (Throw (Error "TypeError"
                 "Cannot read properties of undefined (reading 'slice')")))
          | Some arr =>
              (* .slice(): a new array with the same elements *)
              let coordinates := fresh (dom h) in
              let h1 := <[coordinates := arr]> h in
              match adjust_loop fuel (lng (lngLat e)) coordinates h1 with
              | (h2, true) =>
                  (h2, Some (Normal (Some (mkPicked coordinates (properties f0)))))
              | (h2, false) => (h2, None)
              end
          end
      end
  end.

(** The same loop on the number alone: the value of [coordinates[0]] after
    at most [fuel] evaluations of the condition, and whether the loop was
    left.  [adjust_loop] is this loop run on the heap cell. *)
Definition step (clickLng c0 : num) : num :=
  num_add c0 (if num_gt clickLng c0 then num_lit 360 else num_lit (-360)).

Fixpoint wrap (fuel : nat) (clickLng c0 : num) : num * bool :=
  match fuel with
  | O => (c0, false)
  | S fuel' =>
      if num_gt (num_abs (num_sub clickLng c0)) (num_lit 180)
      then wrap fuel' clickLng (step clickLng c0)
      else (c0, true)
  end.

End Normalizer.

Arguments LngLat : clear implicits.
Arguments MapGeoJSONFeature : clear implicits.
Arguments MapMouseEvent : clear implicits.

(** ** The label extractor, lines 138-152 *)

Definition preferredKeys : list string :=
  ["name"; "nama"; "nameobj"; "id"; "fid"; "objectid"; "description"].

Definition extractLabelValueFromObj (obj : ObjectLiteral) : JSValue :=
  match List.find (fun key => has obj key && truthy (get obj key)) preferredKeys with
  | Some key => get obj key
  | None =>
      let firstNonFalsyKey := List.find (fun key => truthy (get obj key)) (keys obj) in
      (* firstNonFalsyKey ? obj[firstNonFalsyKey] : undefined *)
      match firstNonFalsyKey with
      | Some key => if truthy (JStr key) then get obj key else JUndefined
      | None => JUndefined
      end
  end.

(** ** The properties table renderer, lines 154-169 *)

Section Table.

(** The string a template literal makes of a value (the conversion is
    taken to succeed). *)
Variable String_of : JSValue -> string.

Definition nl : string := String (ascii_of_nat 10) EmptyString.

Definition row (shaded : bool) (key : string) (value : JSValue) : string :=
  ("<tr style='" ++ (if shaded then "background-color: #dddddd" else "") ++ "'>" ++ nl
   ++ "            <td>" ++ key ++ "</td>" ++ nl
   ++ "            <td style='word-break: break-all'>" ++ String_of value ++ "</td>" ++ nl
   ++ "          </tr>")%string.

(** [props.hasOwnProperty(key)]: the method is looked up on [props] itself
    first.  An own property of that name holds a value of [JSValue], which
    is not callable; otherwise [Object.prototype]'s method answers. *)
Definition hasOwnProperty (props : ObjectLiteral) (key : string) : Completion bool :=
  match own props "hasOwnProperty" with
  | Some _ => Throw (Error "TypeError" "props.hasOwnProperty is not a function")
  | None => Normal (has props key)
  end.

(** [for (const key in props)] over the keys still to visit, with the rows
    pushed so far. *)
Fixpoint for_in (props : ObjectLiteral) (ks : list string) (listRow : list string)
  : Completion (list string) :=
  match ks with
  | [] => Normal listRow
  | key :: rest =>
      if String.eqb key "WKT_GEOMETRY" || String.eqb key "ogc_fid" then
        for_in props rest listRow
      else
        bind (hasOwnProperty props key) (fun isOwn =>
          if isOwn then
            let r := row (Nat.eqb (length listRow mod 2) 0) key (get props key) in
            for_in props rest (listRow ++ [r])
          else for_in props rest listRow)
  end.

Definition propertiesTableDiv (props : ObjectLiteral) : Completion string :=
  bind (for_in props (keys props) []) (fun listRow =>
    Normal ("<table style='border: 1px solid #dddddd'>"
            ++ String.concat "" listRow ++ "</table>")%string).

End Table.

(** ** The bounding box, lines 180-188 *)

Section Bbox.

(** The geometry-bounds algorithm ([turf.bbox]): it answers with the
    numbers of a bounding box or throws. *)
Variable turf_bbox : JSValue -> Completion (list float).

Definition getBboxFromGeojson (geojsonData : JSValue) : Completion (option (list float)) :=
  if negb (truthy geojsonData) then Normal None
  else
    try_catch
      (bind (turf_bbox geojsonData) (fun bbox => Normal (Some bbox)))
      (fun err => Normal None).

End Bbox.

(** ** The polygon bounds, lines 171-178 *)

Section PolygonBounds.

(** The map library's bounds object ([Maplibregl.LngLatBounds]) is an
    external collaborator: its constructor, which is handed [undefined]
    twice when the ring is empty, and its [extend], which returns the
    bounds it has grown. *)
Variable Coord : Type.
Variable Bounds : Type.
Variable LngLatBounds_new : option Coord -> option Coord -> Bounds.
Variable extend : Bounds -> Coord -> Bounds.

(** [polygon[0]] is the ring that is folded; without it [coordinates] is
    [undefined] and [coordinates.reduce] throws. *)
Definition getPolygonBoundingBox (polygon : list (list Coord)) : Completion Bounds :=
  match polygon !! 0%nat with
  | None =>
      Throw (Error "TypeError"
               "Cannot read properties of undefined (reading 'reduce')")
  | Some coordinates =>
      Normal (fold_left (fun bounds coord => extend bounds coord) coordinates
                (LngLatBounds_new (coordinates !! 0%nat) (coordinates !! 0%nat)))
  end.

End PolygonBounds.

(** An interval model of the bounds object, on one axis with whole
    coordinates: it instantiates the collaborator in examples. *)
Definition interval_new (sw ne : option Z) : option (Z * Z) :=
  match sw, ne with
  | Some lo, Some hi => Some (lo, hi)
  | _, _ => None
  end.

Definition interval_extend (b : option (Z * Z)) (c : Z) : option (Z * Z) :=
  match b with
  | Some (lo, hi) => Some (Z.min lo c, Z.max hi c)
  | None => Some (c, c)
  end.

Definition interval_contains (b : option (Z * Z)) (c : Z) : Prop :=
  match b with
  | Some (lo, hi) => lo <= c <= hi
  | None => False
  end.

(** ** The point-in-box test, lines 190-192 *)

(** [a >= b] and [a <= b] where [b] is an array element: an absent element
    is [undefined], which compares as NaN, and every comparison with NaN is
    false. *)
Definition ge_element (a : float) (b : option float) : bool :=
  match b with
  | Some b => PrimFloat.leb b a
  | None => false
  end.

Definition le_element (a : float) (b : option float) : bool :=
  match b with
  | Some b => PrimFloat.leb a b
  | None => false
  end.

(** Modelled from the spec: the type [BBOXType] of [@/types/bbox.type] is
    not among the sources; the spec gives a bounding box as the numbers
    (minLng, minLat, maxLng, maxLat) in that order, here an array of
    numbers read by index. *)
Definition isWithinBbox (lngLat : LngLat float) (bbox : list float) : bool :=
  ge_element (lng lngLat) (bbox !! 0%nat)
  && le_element (lng lngLat) (bbox !! 2%nat)
  && ge_element (lat lngLat) (bbox !! 1%nat)
  && le_element (lat lngLat) (bbox !! 3%nat).

(** ** Notions of the specification used to state the table's shape *)

Definition reserved (key : string) : bool :=
  String.eqb key "WKT_GEOMETRY" || String.eqb key "ogc_fid".

(** The properties that get a row, in key order. *)
Definition emitted (props : ObjectLiteral) : ObjectLiteral :=
  List.filter (fun kv => negb (reserved (fst kv))) props.

(** The rows of the listed properties, the first one at position [i]:
    a row is shaded exactly when its position is even. *)
Fixpoint rows_from (String_of : JSValue -> string) (i : nat) (l : ObjectLiteral)
  : list string :=
  match l with
  | [] => []
  | (key, value) :: rest =>
      row String_of (Nat.even i) key value :: rows_from String_of (S i) rest
  end.

(** ** Stand-ins for the collaborators, used in the examples *)

(** A parser that knows the empty object and rejects everything else. *)
Definition demo_parse (text : string) : Completion JSValue :=
  if String.eqb text "{}" then Normal (JObj [])
  else Throw (Error "SyntaxError" "Unexpected token").

(** The loader with every converter played by [demo_parse]. *)
Definition demo_load (inputFile : option File) : Promise JSValue :=
  getGeojsonData demo_parse string (fun text => Normal text) demo_parse demo_parse
    (Error "NotReadableError" "") inputFile.

(** ** Concrete events used in the examples *)

(** A click at the given longitude and latitude that hit one point
    feature, whose coordinate array is at location 1 of the heap. *)
Definition point_event {num : Type} (clickLng clickLat : num) : MapMouseEvent num :=
  mkEvent (mkLngLat clickLng clickLat) (Some [mkFeature 1%positive []]).

Definition point_heap {num : Type} (x y : num) : gmap loc (list num) :=
  {[ 1%positive := [x; y] ]}.

(** JavaScript's [152.2]: the binary64 value nearest to that decimal. *)
Definition js_152_2 : float := 0x1.3066666666666p+7%float.

(** ** Whole degrees in binary64 *)



(** ** Binary64 numbers, counted in units of 2^-1074 *)

(** Every finite binary64 number is a whole multiple of 2^-1074, the least
    positive one.  [SF2Z] is that multiple, read off the number's sign,
    mantissa and exponent; so the exact sum or difference of two finite
    numbers is the sum or difference of these integers. *)
Definition SF2Z (x : spec_float) : Z :=
  match x with
  | S754_finite s m e => cond_Zopp s (Zpos m * 2 ^ (e + 1074))
  | _ => 0
  end.

Definition SFfinite (x : spec_float) : bool :=
  match x with
  | S754_zero _ | S754_finite _ _ _ => true
  | _ => false
  end.

Definition ulps (x : float) : Z := SF2Z (Prim2SF x).

Definition finite64 (x : float) : bool := SFfinite (Prim2SF x).

(** The exponent of the unit in the last place of a binary64 number of
    magnitude [M] units: 53 bits are kept. *)
Definition ulp_exp (M : Z) : Z := Z.max 0 (Z.log2 M + 1 - 53).

(** [M] rounded to a multiple of [2^k], to nearest, ties to the even
    multiple. *)
Definition rne (M k : Z) : Z :=
  let q := M / 2 ^ k in
  let r := M mod 2 ^ k in
  if (2 ^ k <? 2 * r) || ((2 ^ k =? 2 * r) && Z.odd q)
  then (q + 1) * 2 ^ k else q * 2 ^ k.

(** Rounding to binary64: what an addition or a subtraction does to its
    exact result (below the overflow threshold). *)
Definition RN (M : Z) : Z :=
  match M with
  | Z0 => 0
  | Zpos _ => rne M (ulp_exp M)
  | Zneg p => - rne (Zpos p) (ulp_exp (Zpos p))
  end.

(** *** The longitude loop on these integers *)

(** The loop condition and the loop body of [getMapLibreCoordinate], on the
    click longitude [C] and the feature longitude [X] in units of 2^-1074:
    180 is [180 * 2^1074] such units. *)
Definition condZ (C X : Z) : bool := 180 * 2 ^ 1074 <? Z.abs (RN (C - X)).

Definition nextZ (C X : Z) : Z :=
  RN (X + (if X <? C then 360 * 2 ^ 1074 else - (360 * 2 ^ 1074))).

(** The loop started at [X] is left after finitely many steps, through
    longitudes below 2^54 in magnitude. *)
Inductive Halts (C : Z) : Z -> Prop :=
| Halts_exit (X : Z) :
    Z.abs X < 2 ^ 1128 -> condZ C X = false -> Halts C X
| Halts_step (X : Z) :
    Z.abs X < 2 ^ 1128 -> condZ C X = true -> Halts C (nextZ C X) -> Halts C X.

(** * Theorems *)

(** ** Strings *)

Section StringFacts.

Local Open Scope string_scope.

Lemma substring_all (s : string) : substring 0 (String.length s) s = s.
Proof. induction s as [|c r IH]; simpl; [reflexivity | now rewrite IH]. Qed.

Lemma substring_suffix (p e : string) :
  substring (String.length p) (String.length e) (p ++ e) = e.
Proof. induction p as [|c p IH]; simpl; [apply substring_all | exact IH]. Qed.

Lemma substring_length_le (s : string) (n m : nat) :
  (String.length (substring n m s) <= m)%nat.
Proof.
  revert n m; induction s as [|c r IH]; intros [|n] [|m]; simpl; try lia.
  - specialize (IH 0%nat m); lia.
  - apply IH.
  - apply IH.
Qed.

Lemma append_length (p e : string) :
  String.length (p ++ e) = (String.length p + String.length e)%nat.
Proof. induction p as [|c p IH]; simpl; [reflexivity | now rewrite IH]. Qed.

Lemma toLowerCase_length (s : string) :
  String.length (JS.toLowerCase s) = String.length s.
Proof. induction s as [|c r IH]; simpl; [reflexivity | now rewrite IH]. Qed.

(** The final extension is a suffix that starts with the dot. *)
Lemma final_extension_suffix (s e : string) :
  final_extension s = Some e -> exists p, s = p ++ e.
Proof.
  revert e; induction s as [|c r IH]; simpl; intros e He; [discriminate|].
  destruct (final_extension r) as [e'|] eqn:Hr.
  - injection He as <-. destruct (IH e' eq_refl) as [p ->].
    now exists (String c p).
  - destruct (Ascii.eqb c "."); [|discriminate].
    injection He as <-. now exists "".
Qed.

Lemma final_extension_dot (s e : string) :
  final_extension s = Some e -> exists r, e = String "." r.
Proof.
  revert e; induction s as [|c r IH]; simpl; intros e He; [discriminate|].
  destruct (final_extension r) as [e'|] eqn:Hr.
  - injection He as <-. now apply IH.
  - destruct (Ascii.eqb_spec c "."); [|discriminate].
    injection He as <-. subst c. now exists r.
Qed.

(** [lastIndexOf] finds where the final extension starts. *)
Lemma lastIndexOf_from_final (s : string) (i found : Z) :
  JS.lastIndexOf_from s "." i found =
  match final_extension s with
  | Some e => i + (Z.of_nat (String.length s) - Z.of_nat (String.length e))
  | None => found
  end.
Proof.
  revert i found; induction s as [|c r IH]; intros i found; [reflexivity|].
  cbn [JS.lastIndexOf_from final_extension]. rewrite IH.
  destruct (final_extension r) as [e|].
  - cbn [String.length]. lia.
  - destruct (Ascii.eqb c "."); [|reflexivity]. lia.
Qed.

(** The extension the source computes, before case folding. *)
Lemma slice_lastIndexOf (s : string) :
  match final_extension s with
  | Some e => JS.slice s (JS.lastIndexOf s ".") = e
  | None => (String.length (JS.slice s (JS.lastIndexOf s ".")) <= 1)%nat
  end.
Proof.
  unfold JS.lastIndexOf. rewrite lastIndexOf_from_final.
  destruct (final_extension s) as [e|] eqn:He.
  - destruct (final_extension_suffix _ _ He) as [p ->].
    unfold JS.slice. rewrite append_length.
    set (lp := String.length p). set (le := String.length e).
    replace (0 + (Z.of_nat (lp + le) - Z.of_nat le)) with (Z.of_nat lp) by lia.
    destruct (Z.ltb_spec (Z.of_nat lp) 0); [lia|].
    rewrite Z.min_l by lia.
    replace (Z.to_nat (Z.of_nat lp)) with lp by lia.
    replace (Z.to_nat (Z.of_nat (lp + le) - Z.of_nat lp)) with le by lia.
    apply substring_suffix.
  - unfold JS.slice. cbn [Z.ltb Z.compare].
    etransitivity; [apply substring_length_le|]. lia.
Qed.

Lemma toLowerChar_inv (a b : ascii) :
  plain b = true -> JS.toLowerChar a = b -> a = b \/ a = upper_of b.
Proof.
  intros Hp <-.
  destruct a as [[] [] [] [] [] [] [] []];
    first [ left; reflexivity | right; reflexivity | discriminate Hp ].
Qed.

Lemma toLowerChar_variant (a b : ascii) :
  plain b = true -> a = b \/ a = upper_of b -> JS.toLowerChar a = b.
Proof.
  intros Hp Hv.
  destruct b as [[] [] [] [] [] [] [] []];
    first [ discriminate Hp | destruct Hv as [-> | ->]; reflexivity ].
Qed.

Lemma toLowerCase_case_variant (s t : string) :
  plain_string t = true -> (JS.toLowerCase s = t <-> case_variant s t).
Proof.
  revert t; induction s as [|a s IH]; intros [|b t] Hp; simpl in *;
    try (split; [discriminate | contradiction]).
  - tauto.
  - apply andb_true_iff in Hp as [Hb Ht]. specialize (IH t Ht). split.
    + intros Heq. injection Heq as Ha Hs. split.
      * now apply toLowerChar_inv.
      * now apply IH.
    + intros [Ha Hs]. f_equal.
      * now apply toLowerChar_variant.
      * now apply IH.
Qed.

Lemma enum_value_plain (tag : SpatialFileEnum) : plain_string (enum_value tag) = true.
Proof. destruct tag; reflexivity. Qed.

Lemma enum_value_long (tag : SpatialFileEnum) : (4 <= String.length (enum_value tag))%nat.
Proof. destruct tag; simpl; lia. Qed.

(** [validExtensions.includes] picks the tag whose value is the string. *)
Lemma find_validExtensions (ext : string) (tag : SpatialFileEnum) :
  List.find (fun e => String.eqb (enum_value e) ext) validExtensions = Some tag
  <-> ext = enum_value tag.
Proof.
  unfold validExtensions; cbn [List.find enum_value]. split.
  - destruct (String.eqb_spec ".zip" ext) as [<-|]; [now intros [= <-]|].
    destruct (String.eqb_spec ".kml" ext) as [<-|]; [now intros [= <-]|].
    destruct (String.eqb_spec ".geojson" ext) as [<-|]; [now intros [= <-]|].
    discriminate.
  - intros ->. now destruct tag.
Qed.

(** Detection, characterised by the final extension of the name. *)
Lemma getSpatialFileType_iff (f : File) (tag : SpatialFileEnum) :
  getSpatialFileType (Some f) = Some tag <->
  exists ext, final_extension (name f) = Some ext
              /\ case_variant ext (enum_value tag).
Proof.
  unfold getSpatialFileType. rewrite find_validExtensions.
  pose proof (slice_lastIndexOf (name f)) as Hs.
  destruct (final_extension (name f)) as [e|] eqn:He.
  - rewrite Hs. split.
    + intros Heq. exists e. split; [reflexivity|].
      apply toLowerCase_case_variant; [apply enum_value_plain | exact Heq].
    + intros (ext & [= <-] & Hv).
      apply toLowerCase_case_variant; [apply enum_value_plain | exact Hv].
  - split; [|now intros (ext & Hx & _)].
    intros Heq. apply (f_equal String.length) in Heq.
    rewrite toLowerCase_length in Heq.
    pose proof (enum_value_long tag). lia.
Qed.

Lemma getSpatialFileType_none_iff (f : File) :
  getSpatialFileType (Some f) = None <->
  forall tag ext, final_extension (name f) = Some ext ->
                  ~ case_variant ext (enum_value tag).
Proof.
  split.
  - intros Hn tag ext He Hv.
    assert (getSpatialFileType (Some f) = Some tag) as Hs
      by (apply getSpatialFileType_iff; eauto).
    congruence.
  - intros Hno. destruct (getSpatialFileType (Some f)) as [tag|] eqn:Hg; [|reflexivity].
    apply getSpatialFileType_iff in Hg as (ext & He & Hv).
    now destruct (Hno tag ext He).
Qed.

End StringFacts.

(** ** Format detection *)

(** *** File names as UTF-16 *)

Section UTF16Facts.

Lemma final_extension16_suffix (s e : ustring) :
  final_extension16 s = Some e -> exists p, s = p ++ e.
Proof.
  revert e; induction s as [|c r IH]; simpl; intros e He; [discriminate|].
  destruct (final_extension16 r) as [e'|] eqn:Hr.
  - injection He as <-. destruct (IH e' eq_refl) as [p ->].
    now exists (c :: p).
  - destruct (c =? full_stop)%N; [|discriminate].
    injection He as <-. now exists [].
Qed.

Lemma lastIndexOf_from_final16 (s : ustring) (i found : Z) :
  JS16.lastIndexOf_from s full_stop i found =
  match final_extension16 s with
  | Some e => i + (Z.of_nat (length s) - Z.of_nat (length e))
  | None => found
  end.
Proof.
  revert i found; induction s as [|c r IH]; intros i found; [reflexivity|].
  cbn [JS16.lastIndexOf_from final_extension16]. rewrite IH.
  destruct (final_extension16 r) as [e|].
  - cbn [length]. lia.
  - destruct (c =? full_stop)%N; [|reflexivity]. lia.
Qed.

Lemma slice_lastIndexOf16 (s : ustring) :
  match final_extension16 s with
  | Some e => JS16.slice s (JS16.lastIndexOf s full_stop) = e
  | None => (length (JS16.slice s (JS16.lastIndexOf s full_stop)) <= 1)%nat
  end.
Proof.
  unfold JS16.lastIndexOf. rewrite lastIndexOf_from_final16.
  destruct (final_extension16 s) as [e|] eqn:He.
  - destruct (final_extension16_suffix _ _ He) as [p ->].
    unfold JS16.slice. rewrite length_app.
    set (lp := length p). set (le := length e).
    replace (0 + (Z.of_nat (lp + le) - Z.of_nat le)) with (Z.of_nat lp) by lia.
    destruct (Z.ltb_spec (Z.of_nat lp) 0); [lia|].
    rewrite Z.min_l by lia. rewrite Nat2Z.id. apply drop_app_length.
  - unfold JS16.slice. cbn [Z.ltb Z.compare]. rewrite length_drop. lia.
Qed.

Lemma find_validExtensions16 (ext : ustring) (tag : SpatialFileEnum) :
  List.find (fun e => bool_decide (units (enum_value e) = ext)) validExtensions
  = Some tag
  <-> ext = units (enum_value tag).
Proof.
  unfold validExtensions; cbn [List.find]. split.
  - repeat case_bool_decide; intros [= <-]; congruence.
  - intros ->. destruct tag; reflexivity.
Qed.

Lemma enum_units_plain (tag : SpatialFileEnum) :
  forallb plain16 (units (enum_value tag)) = true.
Proof. destruct tag; reflexivity. Qed.

Lemma enum_units_long (tag : SpatialFileEnum) :
  (4 <= length (units (enum_value tag)))%nat.
Proof. destruct tag; cbn; lia. Qed.

Section Lawful.

Variable toLowerCase : ustring -> ustring.
Hypothesis law : toLowerCase_law toLowerCase.

(** Detection, characterised by the final extension of the name. *)
Lemma getSpatialFileType16_iff (f : File16) (tag : SpatialFileEnum) :
  getSpatialFileType16 toLowerCase (Some f) = Some tag <->
  exists ext, final_extension16 (name16 f) = Some ext
              /\ Forall2 lowers_to ext (units (enum_value tag)).
Proof using law.
  unfold getSpatialFileType16. rewrite find_validExtensions16.
  pose proof (slice_lastIndexOf16 (name16 f)) as Hs.
  pose proof (law (JS16.slice (name16 f) (JS16.lastIndexOf (name16 f) full_stop))
                (units (enum_value tag)) (enum_units_plain tag)) as Hlaw.
  destruct (final_extension16 (name16 f)) as [e|] eqn:He.
  - rewrite Hs in *. split.
    + intros Heq. exists e. split; [reflexivity|]. now apply Hlaw.
    + intros (ext & [= <-] & Hv). now apply Hlaw.
  - split; [|now intros (ext & Hx & _)].
    intros Heq. apply Hlaw in Heq.
    apply Forall2_length in Heq. pose proof (enum_units_long tag). lia.
Qed.

Lemma getSpatialFileType16_none_iff (f : File16) :
  getSpatialFileType16 toLowerCase (Some f) = None <->
  forall tag ext, final_extension16 (name16 f) = Some ext ->
                  ~ Forall2 lowers_to ext (units (enum_value tag)).
Proof using law.
  split.
  - intros Hn tag ext He Hv.
    assert (getSpatialFileType16 toLowerCase (Some f) = Some tag) as Hs
      by (apply getSpatialFileType16_iff; eauto).
    congruence.
  - intros Hno.
    destruct (getSpatialFileType16 toLowerCase (Some f)) as [tag|] eqn:Hg;
      [|reflexivity].
    apply getSpatialFileType16_iff in Hg as (ext & He & Hv).
    now destruct (Hno tag ext He).
Qed.

End Lawful.

Lemma lower_unit_spec (a b : N) :
  plain16 b = true -> (lower_unit a = b <-> lowers_to a b).
Proof.
  unfold plain16, lower_unit, lowers_to, letter_case_variant, small_letter, kelvin_sign.
  intros Hp. apply andb_true_iff in Hp as [Hlt Hnc]. apply N.ltb_lt in Hlt.
  apply negb_true_iff in Hnc.
  destruct (N.leb_spec 65 a), (N.leb_spec a 90), (N.eqb_spec a 8490),
    (N.leb_spec 97 b), (N.leb_spec b 122), (N.leb_spec 65 b), (N.leb_spec b 90);
    cbn [andb] in *; try discriminate; split; intros; try lia; intuition (try lia; try discriminate).
Qed.

Lemma ascii_toLowerCase_law : toLowerCase_law ascii_toLowerCase.
Proof.
  intros s. induction s as [|a s IH]; intros [|b t] Hp; cbn [ascii_toLowerCase map].
  - split; [constructor | reflexivity].
  - split; [discriminate | inversion 1].
  - split; [discriminate | inversion 1].
  - cbn [forallb] in Hp. apply andb_true_iff in Hp as [Hb Ht]. split.
    + intros [= Ha Hs]. constructor; [now apply lower_unit_spec | now apply IH].
    + intros Hv. inversion Hv as [|? ? ? ? Hab Hst]; subst. f_equal.
      * now apply lower_unit_spec.
      * now apply IH.
Qed.

End UTF16Facts.

(** [toLowerCase] turns the extension written with the Kelvin sign into
    [.kml]. *)
Lemma kelvin_extension_lowers :
  Forall2 lowers_to kelvin_extension (units (enum_value KML)).
Proof.
  change (units (enum_value KML)) with [46; 107; 109; 108]%N.
  unfold kelvin_extension.
  constructor; [left; left; reflexivity|].
  constructor; [right; split; reflexivity|].
  constructor; [left; right; split; reflexivity|].
  constructor; [left; right; split; reflexivity|].
  constructor.
Qed.

(** C3, as the code has it, for file names that are any UTF-16 strings and
    for every [toLowerCase] that follows Unicode's case mapping.  A file
    whose final extension (the substring from the last full stop) is
    [.zip], [.kml] or [.geojson] with each letter small, capital or, for
    [k], the Kelvin sign, is given the matching tag; every other file, and
    in particular one whose name has no full stop, is given none. *)
Theorem getSpatialFileType_utf16_final_extension
  (toLowerCase : ustring -> ustring) (f : File16) :
  toLowerCase_law toLowerCase ->
  (forall tag ext,
      final_extension16 (name16 f) = Some ext ->
      Forall2 lowers_to ext (units (enum_value tag)) ->
      getSpatialFileType16 toLowerCase (Some f) = Some tag)
  /\ ((forall tag ext,
          final_extension16 (name16 f) = Some ext ->
          ~ Forall2 lowers_to ext (units (enum_value tag))) ->
      getSpatialFileType16 toLowerCase (Some f) = None)
  /\ (final_extension16 (name16 f) = None ->
      getSpatialFileType16 toLowerCase (Some f) = None).
Proof.
  intros law. split; [|split].
  - intros tag ext He Hv. apply getSpatialFileType16_iff; eauto.
  - now apply getSpatialFileType16_none_iff.
  - intros Hn. apply getSpatialFileType16_none_iff; [exact law|].
    intros tag ext He. congruence.
Qed.

Lemma getSpatialFileType_utf16_final_extension_witness :
  getSpatialFileType16 ascii_toLowerCase (Some (mkFile16 kelvin_name None)) = Some KML
  /\ getSpatialFileType16 ascii_toLowerCase
       (Some (mkFile16 (units "notes.txt") None)) = None
  /\ getSpatialFileType16 ascii_toLowerCase
       (Some (mkFile16 (units "README") None)) = None.
Proof.
  split; [|split].
  - apply (proj1 (getSpatialFileType_utf16_final_extension ascii_toLowerCase
                    (mkFile16 kelvin_name None) ascii_toLowerCase_law)
             KML kelvin_extension); [reflexivity|].
    exact kelvin_extension_lowers.
  - apply (proj1 (proj2 (getSpatialFileType_utf16_final_extension ascii_toLowerCase
                           (mkFile16 (units "notes.txt") None)
                           ascii_toLowerCase_law))).
    intros tag ext [= <-] Hv.
    apply (proj2 (ascii_toLowerCase_law _ _ (enum_units_plain tag))) in Hv.
    destruct tag; vm_compute in Hv; discriminate Hv.
  - apply (proj2 (proj2 (getSpatialFileType_utf16_final_extension ascii_toLowerCase
                           (mkFile16 (units "README") None)
                           ascii_toLowerCase_law))).
    reflexivity.
Defined.

(** C3 fails on a name written with the Kelvin sign: the final extension
    of [a.KML], with U+212A for its [K], is no letter-case variant of any
    of the three extensions, and the file is given the tag [.kml] all the
    same, whatever the engine's [toLowerCase] does on other characters (a
    [toLowerCase] that follows Unicode exists: the stand-in does, as far
    as the law goes). *)
Lemma getSpatialFileType_kelvin_sign :
  final_extension16 kelvin_name = Some kelvin_extension
  /\ (forall tag,
        ~ Forall2 letter_case_variant kelvin_extension (units (enum_value tag)))
  /\ toLowerCase_law ascii_toLowerCase
  /\ (forall toLowerCase,
        toLowerCase_law toLowerCase ->
        getSpatialFileType16 toLowerCase (Some (mkFile16 kelvin_name None)) = Some KML).
Proof.
  split; [reflexivity|]. split; [|split; [exact ascii_toLowerCase_law|]].
  - intros tag Hv. destruct tag; cbn in Hv.
    + inversion Hv as [|? ? ? ? _ Hv1]; subst. inversion Hv1 as [|? ? ? ? Hk _]; subst.
      destruct Hk as [Hk|[_ Hk]]; discriminate Hk.
    + inversion Hv as [|? ? ? ? _ Hv1]; subst. inversion Hv1 as [|? ? ? ? Hk _]; subst.
      destruct Hk as [Hk|[_ Hk]]; discriminate Hk.
    + apply Forall2_length in Hv. discriminate Hv.
  - intros toLowerCase law. apply getSpatialFileType16_iff; [exact law|].
    exists kelvin_extension. split; [reflexivity|].
    exact kelvin_extension_lowers.
Qed.

Section Latin1.

Lemma code_full_stop (c : ascii) : (JS.code c =? full_stop)%N = Ascii.eqb c ".".
Proof. destruct c as [[] [] [] [] [] [] [] []]; reflexivity. Qed.

Lemma units_cons (c : ascii) (s : string) :
  units (String c s) = JS.code c :: units s.
Proof. reflexivity. Qed.

Lemma units_final_extension (s : string) :
  final_extension16 (units s) = option_map units (final_extension s).
Proof.
  induction s as [|c r IH]; [reflexivity|].
  rewrite units_cons. cbn [final_extension16 final_extension]. rewrite IH.
  destruct (final_extension r) as [e|]; [reflexivity|]. cbn [option_map].
  rewrite code_full_stop. now destruct (Ascii.eqb c ".").
Qed.

Lemma code_inj (a b : ascii) : JS.code a = JS.code b -> a = b.
Proof.
  unfold JS.code. intros Hab.
  rewrite <- (ascii_N_embedding a), <- (ascii_N_embedding b). now rewrite Hab.
Qed.

Lemma lowers_to_code (a b : ascii) :
  lowers_to (JS.code a) (JS.code b) <-> a = b \/ a = upper_of b.
Proof.
  unfold lowers_to, letter_case_variant, upper_of, small_letter, kelvin_sign.
  pose proof (N_ascii_bounded a) as Ha. pose proof (N_ascii_bounded b) as Hb.
  fold (JS.code a) in Ha. fold (JS.code b) in Hb.
  split.
  - intros [[Heq|[Hs Heq]]|[_ Hk]].
    + left. now apply code_inj.
    + right. rewrite Hs. apply code_inj. rewrite Heq. unfold JS.code at 2.
      rewrite N_ascii_embedding; [reflexivity|]. lia.
    + lia.
  - intros [-> | ->]; [now left; left|].
    destruct ((97 <=? JS.code b)%N && (JS.code b <=? 122)%N) eqn:Hs; [|now left; left].
    left. right. split; [reflexivity|]. unfold JS.code at 1.
    rewrite N_ascii_embedding; [reflexivity|]. lia.
Qed.

Lemma lowers_to_units (ext t : string) :
  Forall2 lowers_to (units ext) (units t) <-> case_variant ext t.
Proof.
  revert t; induction ext as [|a ext IH]; intros [|b t]; cbn [case_variant];
    rewrite ?units_cons; change (units EmptyString) with (@nil N).
  - split; [tauto | constructor].
  - split; [inversion 1 | tauto].
  - split; [inversion 1 | tauto].
  - split.
    + inversion 1 as [|? ? ? ? Hab Hr]; subst. split; [now apply lowers_to_code | now apply IH].
    + intros [Hab Hr]. constructor; [now apply lowers_to_code | now apply IH].
Qed.

(** On names of the Latin-1 range the detection is the one of
    [getSpatialFileType], whatever the engine's [toLowerCase] does elsewhere. *)
Lemma getSpatialFileType16_latin1 (toLowerCase : ustring -> ustring) (f : File) :
  toLowerCase_law toLowerCase ->
  getSpatialFileType16 toLowerCase (Some (utf16 f)) = getSpatialFileType (Some f).
Proof.
  intros law.
  assert (Hiff : forall tag,
             getSpatialFileType16 toLowerCase (Some (utf16 f)) = Some tag
             <-> getSpatialFileType (Some f) = Some tag).
  { intros tag. rewrite (getSpatialFileType16_iff _ law), getSpatialFileType_iff.
    cbn [utf16 name16]. rewrite units_final_extension. split.
    - intros (ext & He & Hv). destruct (final_extension (name f)) as [e|]; [|discriminate].
      injection He as <-. exists e. split; [reflexivity | now apply lowers_to_units].
    - intros (ext & He & Hv). exists (units ext). rewrite He.
      split; [reflexivity | now apply lowers_to_units]. }
  destruct (getSpatialFileType16 toLowerCase (Some (utf16 f))) as [tag|] eqn:H16.
  - symmetry. now apply Hiff.
  - destruct (getSpatialFileType (Some f)) as [tag|] eqn:H8; [|reflexivity].
    discriminate (proj2 (Hiff tag) eq_refl).
Qed.

End Latin1.

(** An absent file has no format either. *)
Lemma getSpatialFileType_absent : getSpatialFileType None = None.
Proof. reflexivity. Qed.

Section StringFacts2.

Local Open Scope string_scope.

Lemma append_cons (c : ascii) (s t : string) :
  String c s ++ t = String c (s ++ t).
Proof. reflexivity. Qed.

Lemma substring_split (s : string) (n : nat) :
  (n <= String.length s)%nat ->
  s = substring 0 n s ++ substring n (String.length s - n) s.
Proof.
  revert n; induction s as [|c r IH]; intros [|n] Hn; simpl in *;
    try reflexivity; try lia.
  - now rewrite substring_all.
  - rewrite append_cons. f_equal. apply IH. lia.
Qed.

Lemma endsWith_suffix (s x : string) :
  JS.endsWith s x = true -> exists p, s = p ++ x.
Proof.
  unfold JS.endsWith. intros [Hle Heq]%andb_true_iff.
  apply Nat.leb_le in Hle. apply String.eqb_eq in Heq.
  exists (substring 0 (String.length s - String.length x) s).
  pose proof (substring_split s (String.length s - String.length x)) as Hs.
  replace (String.length s - (String.length s - String.length x))%nat
    with (String.length x) in Hs by lia.
  rewrite Heq in Hs. apply Hs. lia.
Qed.

Lemma final_extension_app (p e : string) (e' : string) :
  final_extension e = Some e' -> final_extension (p ++ e) = Some e'.
Proof.
  intros He. induction p as [|c p IH]; simpl; [exact He | now rewrite IH].
Qed.

Lemma case_variant_refl (t : string) : case_variant t t.
Proof. induction t; simpl; auto. Qed.

(** A name that ends, letter for letter, in an enum value is detected as
    that format. *)
Lemma endsWith_getSpatialFileType (f : File) (tag : SpatialFileEnum) :
  JS.endsWith (name f) (enum_value tag) = true ->
  getSpatialFileType (Some f) = Some tag.
Proof.
  intros [p Hp]%endsWith_suffix. apply getSpatialFileType_iff.
  exists (enum_value tag). split; [|apply case_variant_refl].
  rewrite Hp. apply final_extension_app. now destruct tag.
Qed.

Lemma case_variant_length (s t : string) :
  case_variant s t -> String.length s = String.length t.
Proof.
  revert t; induction s as [|a s IH]; intros [|b t]; simpl; try tauto.
  intros [_ Hv]. f_equal. now apply IH.
Qed.

Lemma endsWith_other_suffix (p ext x : string) :
  String.length ext = String.length x -> ext <> x ->
  JS.endsWith (p ++ ext) x = false.
Proof.
  intros Hlen Hne. unfold JS.endsWith. rewrite append_length, <- Hlen.
  replace (String.length p + String.length ext - String.length ext)%nat
    with (String.length p) by lia.
  rewrite substring_suffix. apply andb_false_iff. right.
  now apply String.eqb_neq.
Qed.

End StringFacts2.

(** ** The spatial file loader *)

Section LoaderFacts.

Variable JSON_parse : string -> Completion JSValue.
Variable Document : Type.
Variable DOMParser_parseFromString : string -> Completion Document.
Variable toGeoJSON_kml : Document -> Completion JSValue.
Variable shp : string -> Completion JSValue.
Variable NotReadable : JSError.

Local Abbreviation load :=
  (getGeojsonData JSON_parse Document DOMParser_parseFromString toGeoJSON_kml
     shp NotReadable).

Lemma await_then_resolve_id {A} (p : Promise A) : await_then_resolve p = p.
Proof. now destruct p as [reads [v|r|]]. Qed.

(** Dispatch: the loader behaves as the read path of the detected format. *)
Lemma getGeojsonData_dispatch (inputFile : option File) :
  load inputFile =
  match getSpatialFileType inputFile with
  | Some GEOJSON => readGeojsonFile JSON_parse inputFile
  | Some KML =>
      readKmlFile Document DOMParser_parseFromString toGeoJSON_kml inputFile
  | Some ZIP => readShpInZipFile shp NotReadable inputFile
  | None => ([], Rejected (RError (Error "Error" "Invalid spatial filetype")))
  end.
Proof.
  unfold getGeojsonData.
  destruct (getSpatialFileType inputFile) as [[]|];
    repeat case_decide; try congruence; apply await_then_resolve_id.
Qed.

(** A well-formed [.geojson] file with a lowercase extension is read once,
    as text, and resolves to the parsed document. *)
Lemma getGeojsonData_geojson (f : File) (text : string) (geoJson : JSValue) :
  JS.endsWith (name f) ".geojson" = true ->
  content f = Some text ->
  JSON_parse text = Normal geoJson ->
  load (Some f) = ([ReadAsText (name f)], Resolved geoJson).
Proof.
  intros Hs Hc Hp. rewrite getGeojsonData_dispatch.
  rewrite (endsWith_getSpatialFileType f GEOJSON Hs).
  unfold readGeojsonFile, onload_geojson. now rewrite Hs, Hc, Hp.
Qed.

Lemma getGeojsonData_kml (f : File) (text : string) (kml : Document)
  (geoJson : JSValue) :
  JS.endsWith (name f) ".kml" = true ->
  content f = Some text ->
  DOMParser_parseFromString text = Normal kml ->
  toGeoJSON_kml kml = Normal geoJson ->
  load (Some f) = ([ReadAsText (name f)], Resolved geoJson).
Proof.
  intros Hs Hc Hd Hp. rewrite getGeojsonData_dispatch.
  rewrite (endsWith_getSpatialFileType f KML Hs).
  unfold readKmlFile, onload_kml. rewrite Hs, Hc, Hd. simpl. now rewrite Hp.
Qed.

Lemma getGeojsonData_zip (f : File) (resData : string) (geoJson : JSValue) :
  JS.endsWith (name f) ".zip" = true ->
  content f = Some resData ->
  shp resData = Normal geoJson ->
  load (Some f) = ([ReadArrayBuffer (name f)], Resolved geoJson).
Proof.
  intros Hs Hc Hp. rewrite getGeojsonData_dispatch.
  rewrite (endsWith_getSpatialFileType f ZIP Hs).
  unfold readShpInZipFile. now rewrite Hs, Hc, Hp.
Qed.

(** Every name whose final extension is a recognized one with some letter
    capitalised is detected, dispatched, and then refused by the read
    path's own check, before any read. *)
Lemma getGeojsonData_capitalised (f : File) (tag : SpatialFileEnum) (ext : string) :
  final_extension (name f) = Some ext ->
  case_variant ext (enum_value tag) ->
  ext <> enum_value tag ->
  getSpatialFileType (Some f) = Some tag
  /\ load (Some f)
     = ([], Rejected (RString match tag with
                              | ZIP => "Please upload a valid .zip file."
                              | KML => "Please upload a valid .kml file."
                              | GEOJSON => "Please upload a valid .geojson file."
                              end)).
Proof.
  intros He Hv Hne.
  assert (getSpatialFileType (Some f) = Some tag) as Hd
    by (apply getSpatialFileType_iff; eauto).
  split; [exact Hd|]. rewrite getGeojsonData_dispatch, Hd.
  destruct (final_extension_suffix _ _ He) as [p Hp].
  pose proof (endsWith_other_suffix p ext (enum_value tag)
                (case_variant_length _ _ Hv) Hne) as Hends.
  rewrite <- Hp in Hends.
  destruct tag; cbn [enum_value] in Hends;
    unfold readGeojsonFile, readKmlFile, readShpInZipFile; now rewrite Hends.
Qed.

(** C1, at the inputs where the code departs from it: a name with a
    capitalised extension is detected as its format, and the read path it
    is dispatched to then refuses it, whatever the content, before any
    read. *)
Theorem getGeojsonData_capitalised_extension_rejected (text : option string) :
  (getSpatialFileType (Some (mkFile "X.GEOJSON" text)) = Some GEOJSON
   /\ load (Some (mkFile "X.GEOJSON" text))
      = ([], Rejected (RString "Please upload a valid .geojson file.")))
  /\ (getSpatialFileType (Some (mkFile "a.Kml" text)) = Some KML
      /\ load (Some (mkFile "a.Kml" text))
         = ([], Rejected (RString "Please upload a valid .kml file.")))
  /\ (getSpatialFileType (Some (mkFile "b.ZIP" text)) = Some ZIP
      /\ load (Some (mkFile "b.ZIP" text))
         = ([], Rejected (RString "Please upload a valid .zip file."))).
Proof. repeat split; rewrite ?getGeojsonData_dispatch; reflexivity. Qed.

(** C4: a file whose extension is not a recognized one, or is missing, is
    rejected with the error [Invalid spatial filetype] and no read, text or
    binary, is issued. *)
Theorem getGeojsonData_unrecognized_no_read (f : File) :
  (forall tag ext,
      final_extension (name f) = Some ext ->
      ~ case_variant ext (enum_value tag)) ->
  load (Some f)
  = ([], Rejected (RError (Error "Error" "Invalid spatial filetype"))).
Proof.
  intros Hno. rewrite getGeojsonData_dispatch.
  now rewrite (proj2 (getSpatialFileType_none_iff f) Hno).
Qed.

(** The same holds when no file is given at all. *)
Lemma getGeojsonData_absent :
  load None = ([], Rejected (RError (Error "Error" "Invalid spatial filetype"))).
Proof. reflexivity. Qed.

End LoaderFacts.

Lemma getGeojsonData_unrecognized_no_read_witness :
  getGeojsonData (fun _ => Throw (Error "SyntaxError" "")) unit
    (fun _ => Normal tt) (fun _ => Normal JNull) (fun _ => Normal JNull)
    (Error "NotReadableError" "") (Some (mkFile "x.txt" (Some "hello")))
  = ([], Rejected (RError (Error "Error" "Invalid spatial filetype"))).
Proof.
  apply getGeojsonData_unrecognized_no_read.
  intros tag ext [= <-]. destruct tag; cbv; intuition discriminate.
Defined.

(** ** The label extractor *)

Section LabelFacts.

Lemma find_first {A} (p : A -> bool) (pre post : list A) (x : A) :
  (forall y, In y pre -> p y = false) -> p x = true ->
  List.find p (pre ++ x :: post) = Some x.
Proof.
  intros Hpre Hx. induction pre as [|y pre IH]; simpl.
  - now rewrite Hx.
  - rewrite (Hpre y) by now left. apply IH. intros z Hz. apply Hpre. now right.
Qed.

Lemma find_all_false {A} (p : A -> bool) (l : list A) :
  (forall y, In y l -> p y = false) -> List.find p l = None.
Proof.
  intros Hl. induction l as [|y l IH]; simpl; [reflexivity|].
  rewrite (Hl y) by now left. apply IH. intros z Hz. apply Hl. now right.
Qed.

Lemma own_In (obj : ObjectLiteral) (key : string) (v : JSValue) :
  own obj key = Some v -> In (key, v) obj.
Proof.
  induction obj as [|[k w] obj IH]; simpl; [discriminate|].
  destruct (String.eqb_spec k key) as [->|]; [intros [= ->]; now left|].
  intros Hv. right. now apply IH.
Qed.

Lemma own_app_fresh (pre post : ObjectLiteral) (key : string) :
  ~ In key (keys pre) -> own (pre ++ post) key = own post key.
Proof.
  induction pre as [|[k w] pre IH]; simpl; [reflexivity|]. intros Hn.
  destruct (String.eqb_spec k key) as [->|]; [tauto|]. apply IH. tauto.
Qed.

Lemma own_app_left (pre post : ObjectLiteral) (key : string) :
  In key (keys pre) -> own (pre ++ post) key = own pre key.
Proof.
  induction pre as [|[k w] pre IH]; simpl; [tauto|]. intros Hk.
  destruct (String.eqb_spec k key) as [->|Hne]; [reflexivity|].
  apply IH. destruct Hk; [contradiction | assumption].
Qed.

Lemma own_keys (obj : ObjectLiteral) (key : string) :
  In key (keys obj) -> exists v, own obj key = Some v.
Proof.
  induction obj as [|[k w] obj IH]; simpl; [tauto|]. intros Hk.
  destruct (String.eqb_spec k key) as [->|Hne]; [eauto|].
  apply IH. destruct Hk; [contradiction | assumption].
Qed.

(** The value at a position of an object whose keys are distinct. *)
Lemma get_middle (pre post : ObjectLiteral) (key : string) (v : JSValue) :
  List.NoDup (keys (pre ++ (key, v) :: post)) -> get (pre ++ (key, v) :: post) key = v.
Proof.
  unfold keys, get. rewrite map_app. simpl. intros Hnd.
  apply NoDup_remove_2 in Hnd.
  rewrite own_app_fresh.
  - simpl. now rewrite String.eqb_refl.
  - intros Hin. apply Hnd. apply in_or_app. now left.
Qed.

(** The keys before the first truthy value read falsy values. *)
Lemma get_before (pre post : ObjectLiteral) (k : string) :
  (forall k' v', In (k', v') pre -> truthy v' = false) ->
  In k (keys pre) -> truthy (get (pre ++ post) k) = false.
Proof.
  intros Hpre Hk. unfold get. rewrite own_app_left by assumption.
  destruct (own_keys pre k Hk) as [v Hv]. rewrite Hv.
  apply (Hpre k v). now apply own_In.
Qed.

(** First rule: the first prioritized key that is present with a truthy
    value decides. *)
Lemma extractLabel_preferred (obj : ObjectLiteral) (pre post : list string)
  (key : string) :
  preferredKeys = pre ++ key :: post ->
  (forall k, In k pre -> has obj k && truthy (get obj k) = false) ->
  has obj key = true -> truthy (get obj key) = true ->
  extractLabelValueFromObj obj = get obj key.
Proof.
  intros Hsplit Hpre Hhas Htr. unfold extractLabelValueFromObj.
  rewrite Hsplit, (find_first _ pre post key); auto.
  now rewrite Hhas, Htr.
Qed.

(** Second rule: when no prioritized key qualifies, the first truthy value
    in key order is returned, provided its key is not the empty string. *)
Lemma extractLabel_fallback (pre post : ObjectLiteral) (key : string)
  (v : JSValue) :
  let obj := pre ++ (key, v) :: post in
  List.NoDup (keys obj) ->
  (forall k, In k preferredKeys -> has obj k && truthy (get obj k) = false) ->
  (forall k' v', In (k', v') pre -> truthy v' = false) ->
  truthy v = true -> key <> ""%string ->
  extractLabelValueFromObj obj = v.
Proof.
  intros obj Hnd Hpref Hpre Hv Hkey. unfold extractLabelValueFromObj.
  rewrite (find_all_false _ preferredKeys Hpref).
  assert (List.find (fun k => truthy (get obj k)) (keys obj) = Some key) as ->.
  { unfold obj at 2, keys. rewrite map_app. simpl. apply find_first.
    - intros k Hk. now apply get_before.
    - unfold obj. now rewrite get_middle. }
  cbn [truthy]. destruct (String.eqb_spec key ""); [contradiction|].
  simpl. now apply get_middle.
Qed.

(** Third rule: without any truthy value the result is [undefined]. *)
Lemma extractLabel_none (obj : ObjectLiteral) :
  (forall k v, In (k, v) obj -> truthy v = false) ->
  extractLabelValueFromObj obj = JUndefined.
Proof.
  intros Hall. unfold extractLabelValueFromObj.
  assert (forall k, truthy (get obj k) = false) as Hget.
  { intros k. unfold get. destruct (own obj k) as [v|] eqn:Hk; [|reflexivity].
    apply (Hall k v). now apply own_In. }
  rewrite !find_all_false; [reflexivity | | ].
  - intros k _. apply Hget.
  - intros k _. rewrite Hget. apply andb_false_r.
Qed.

(** What the code does when the first truthy value sits under the empty
    key: the key itself is tested for truthiness and the value is lost. *)
Lemma extractLabel_empty_key (pre post : ObjectLiteral) (v : JSValue) :
  let obj := pre ++ (""%string, v) :: post in
  List.NoDup (keys obj) ->
  (forall k, In k preferredKeys -> has obj k && truthy (get obj k) = false) ->
  (forall k' v', In (k', v') pre -> truthy v' = false) ->
  truthy v = true ->
  extractLabelValueFromObj obj = JUndefined.
Proof.
  intros obj Hnd Hpref Hpre Hv. unfold extractLabelValueFromObj.
  rewrite (find_all_false _ preferredKeys Hpref).
  assert (List.find (fun k => truthy (get obj k)) (keys obj) = Some ""%string) as ->.
  { unfold obj at 2, keys. rewrite map_app. simpl. apply find_first.
    - intros k Hk. now apply get_before.
    - unfold obj. now rewrite get_middle. }
  reflexivity.
Qed.

End LabelFacts.

(** The examples of the specification. *)
Example extractLabel_spec_1 :
  extractLabelValueFromObj [("name", JStr "A"); ("id", JStr "B")]%string = JStr "A".
Proof. reflexivity. Qed.

Example extractLabel_spec_2 :
  extractLabelValueFromObj [("foo", JStr ""); ("bar", JStr "Z")]%string = JStr "Z".
Proof. reflexivity. Qed.

Example extractLabel_spec_3 :
  extractLabelValueFromObj [("foo", JStr ""); ("bar", JNum 0)]%string = JUndefined.
Proof. reflexivity. Qed.

(** C5, at the input where the code departs from it: the only key, the
    empty string, holds the truthy value ["Z"], and the result is
    [undefined]; with a second truthy value after it the result is still
    [undefined]. *)
Theorem extractLabelValueFromObj_empty_key_undefined :
  truthy (JStr "Z") = true
  /\ extractLabelValueFromObj [(""%string, JStr "Z")] = JUndefined
  /\ extractLabelValueFromObj [(""%string, JStr "Z"); ("a"%string, JStr "Y")]
     = JUndefined.
Proof. repeat split. Qed.

(** ** The properties table renderer *)

Section TableFacts.

Variable String_of : JSValue -> string.

Lemma even_mod2 (n : nat) : Nat.eqb (n mod 2) 0 = Nat.even n.
Proof.
  destruct (Nat.even n) eqn:He.
  - apply Nat.even_spec in He as [k ->]. apply Nat.eqb_eq.
    rewrite Nat.mul_comm. apply Nat.Div0.mod_mul.
  - apply Nat.eqb_neq. intros Hm.
    assert (Nat.even n = true) as Ht; [|congruence].
    apply Nat.even_spec. exists (n / 2)%nat.
    pose proof (Nat.div_mod_eq n 2). lia.
Qed.

(** The loop over a suffix of the keys, for an object that does not shadow
    [hasOwnProperty]: it appends the rows of the suffix. *)
Lemma for_in_rows (pre sub : ObjectLiteral) (listRow : list string) :
  List.NoDup (keys (pre ++ sub)) ->
  own (pre ++ sub) "hasOwnProperty" = None ->
  for_in String_of (pre ++ sub) (keys sub) listRow
  = Normal (listRow ++ rows_from String_of (length listRow) (emitted sub)).
Proof.
  revert pre listRow; induction sub as [|[key value] sub IH];
    intros pre listRow Hnd Hown.
  - simpl. now rewrite app_nil_r.
  - assert (pre ++ (key, value) :: sub = (pre ++ [(key, value)]) ++ sub) as Hre
      by now rewrite <- app_assoc.
    cbn [keys map fst for_in emitted List.filter]. fold (reserved key).
    fold (keys sub). fold (emitted sub).
    destruct (reserved key) eqn:Hr; cbn [negb].
    + rewrite Hre. apply IH; now rewrite <- Hre.
    + unfold hasOwnProperty. rewrite Hown. cbn [bind].
      assert (has (pre ++ (key, value) :: sub) key = true) as ->.
      { unfold has. pose proof (get_middle pre sub key value Hnd) as Hg.
        unfold get in Hg. rewrite own_app_fresh in Hg |- *.
        - simpl. now rewrite String.eqb_refl.
        - unfold keys in Hnd. rewrite map_app in Hnd. simpl in Hnd.
          apply NoDup_remove_2 in Hnd. intros Hin. apply Hnd.
          apply in_or_app. now left.
        - unfold keys in Hnd. rewrite map_app in Hnd. simpl in Hnd.
          apply NoDup_remove_2 in Hnd. intros Hin. apply Hnd.
          apply in_or_app. now left. }
      rewrite (get_middle pre sub key value Hnd), even_mod2.
      rewrite Hre, IH by now rewrite <- Hre.
      rewrite length_app, Nat.add_1_r, <- app_assoc. reflexivity.
Qed.

(** The table of an object that has no own property [hasOwnProperty]: one
    row per property that is not reserved, in key order, shaded at the
    even positions among the rows. *)
Lemma propertiesTableDiv_rows (props : ObjectLiteral) :
  List.NoDup (keys props) ->
  own props "hasOwnProperty" = None ->
  propertiesTableDiv String_of props
  = Normal ("<table style='border: 1px solid #dddddd'>"
            ++ String.concat "" (rows_from String_of 0 (emitted props))
            ++ "</table>")%string.
Proof.
  intros Hnd Hown. unfold propertiesTableDiv.
  pose proof (for_in_rows [] props [] Hnd Hown) as Hrows.
  cbn [app length] in Hrows. now rewrite Hrows.
Qed.

Lemma rows_from_length (i : nat) (l : ObjectLiteral) :
  length (rows_from String_of i l) = length l.
Proof. revert i; induction l as [|[k v] l IH]; intros i; simpl; auto. Qed.

(** The loop throws as soon as it reaches a key that is not reserved when
    the object has its own [hasOwnProperty]. *)
Lemma for_in_shadowed (props : ObjectLiteral) (ks : list string)
  (listRow : list string) (v : JSValue) :
  own props "hasOwnProperty" = Some v ->
  In "hasOwnProperty"%string ks ->
  for_in String_of props ks listRow
  = Throw (Error "TypeError" "props.hasOwnProperty is not a function").
Proof.
  intros Hown. induction ks as [|key ks IH]; intros Hin; [destruct Hin|].
  cbn [for_in]. destruct (String.eqb key "WKT_GEOMETRY" || String.eqb key "ogc_fid")
    eqn:Hr.
  - apply IH. destruct Hin as [Heq|Hin]; [|exact Hin].
    subst key. vm_compute in Hr. discriminate Hr.
  - unfold hasOwnProperty. now rewrite Hown.
Qed.

Lemma propertiesTableDiv_shadowed (props : ObjectLiteral) :
  In "hasOwnProperty"%string (keys props) ->
  propertiesTableDiv String_of props
  = Throw (Error "TypeError" "props.hasOwnProperty is not a function").
Proof.
  intros Hin. destruct (own_keys props _ Hin) as [v Hv].
  unfold propertiesTableDiv. now rewrite (for_in_shadowed props _ [] v Hv Hin).
Qed.

(** C8, at the input where the code departs from it: a mapping with the
    single property [hasOwnProperty] yields no table; the call throws a
    [TypeError]. *)
Theorem propertiesTableDiv_hasOwnProperty_throws :
  propertiesTableDiv String_of [("hasOwnProperty"%string, JNum 1)]
  = Throw (Error "TypeError" "props.hasOwnProperty is not a function").
Proof. reflexivity. Qed.

End TableFacts.

Example propertiesTableDiv_two_rows :
  propertiesTableDiv (fun _ => "v"%string)
    [("a", JNull); ("ogc_fid", JNull); ("b", JNull)]%string
  = Normal ("<table style='border: 1px solid #dddddd'>"
            ++ row (fun _ => "v") true "a" JNull
            ++ row (fun _ => "v") false "b" JNull
            ++ "</table>")%string.
Proof. reflexivity. Qed.

(** ** The bounding box *)

Section BboxFacts.

Variable turf_bbox : JSValue -> Completion (list float).

(** C7: [getBboxFromGeojson] never throws; it returns [null] when the
    input is falsy (absent or empty) and when the bounds algorithm throws,
    and the computed box otherwise. *)
Theorem getBboxFromGeojson_total (geojsonData : JSValue) :
  (forall err, getBboxFromGeojson turf_bbox geojsonData <> Throw err)
  /\ (truthy geojsonData = false ->
      getBboxFromGeojson turf_bbox geojsonData = Normal None)
  /\ (forall err, turf_bbox geojsonData = Throw err ->
      getBboxFromGeojson turf_bbox geojsonData = Normal None)
  /\ (forall bbox, truthy geojsonData = true ->
      turf_bbox geojsonData = Normal bbox ->
      getBboxFromGeojson turf_bbox geojsonData = Normal (Some bbox)).
Proof.
  unfold getBboxFromGeojson, try_catch, bind.
  destruct (truthy geojsonData), (turf_bbox geojsonData);
    repeat split; intros; simpl; congruence.
Qed.

End BboxFacts.

Lemma getBboxFromGeojson_total_witness :
  getBboxFromGeojson (fun _ => Throw (Error "Error" "coordinates must contain numbers"))
    (JObj [("type"%string, JStr "Feature")]) = Normal None
  /\ getBboxFromGeojson (fun _ => Normal [0; 0; 20; 20]%float) JNull = Normal None
  /\ getBboxFromGeojson (fun _ => Normal [0; 0; 20; 20]%float)
       (JObj [("type"%string, JStr "FeatureCollection")])
     = Normal (Some [0; 0; 20; 20]%float).
Proof.
  split; [|split].
  - now apply (proj1 (proj2 (proj2 (getBboxFromGeojson_total _ _)))
                 (Error "Error" "coordinates must contain numbers")).
  - now apply (proj1 (proj2 (getBboxFromGeojson_total _ _))).
  - now apply (proj2 (proj2 (proj2 (getBboxFromGeojson_total _ _)))).
Defined.

(** ** The coordinate normalizer *)

Section NormalizerFacts.

Context {num : Type} `{JSNumber num}.

Implicit Types (h : gmap loc (list num)) (c l : loc) (e : MapMouseEvent num).

(** The heap loop is the number loop run on the cell [c]. *)
Lemma adjust_loop_wrap (fuel : nat) (clickLng c0 : num) (rest : list num) c h :
  h !! c = Some (c0 :: rest) ->
  adjust_loop fuel clickLng c h
  = (<[c := (wrap fuel clickLng c0).1 :: rest]> h, (wrap fuel clickLng c0).2).
Proof.
  revert c0 h; induction fuel as [|fuel IH]; intros c0 h Hc.
  - simpl. now rewrite insert_id.
  - cbn [adjust_loop wrap]. rewrite Hc. simpl. fold (step clickLng c0).
    destruct (num_gt (num_abs (num_sub clickLng c0)) (num_lit 180)).
    + rewrite (IH (step clickLng c0)).
      * now rewrite insert_insert_eq.
      * now rewrite lookup_insert_eq.
    + simpl. now rewrite insert_id.
Qed.

(** An empty coordinate array is left as it is: its first element reads
    [undefined] and the condition is false. *)
Lemma adjust_loop_empty (fuel : nat) (clickLng : num) c h :
  h !! c = Some [] -> adjust_loop (S fuel) clickLng c h = (h, true).
Proof. intros Hc. cbn [adjust_loop]. now rewrite Hc. Qed.

(** The loop writes the cell [c] and no other. *)
Lemma adjust_loop_frame (fuel : nat) (clickLng : num) c h l :
  l <> c -> (adjust_loop fuel clickLng c h).1 !! l = h !! l.
Proof.
  intros Hl. revert h; induction fuel as [|fuel IH]; intros h; [reflexivity|].
  cbn [adjust_loop]. destruct (default [] (h !! c) !! 0%nat) as [c0|]; [|reflexivity].
  destruct (num_gt _ _); [|reflexivity].
  rewrite IH. now rewrite lookup_insert_ne.
Qed.

(** When the loop is left, the condition it last evaluated was false. *)
Lemma wrap_exit (fuel : nat) (clickLng c0 c0' : num) :
  wrap fuel clickLng c0 = (c0', true) ->
  num_gt (num_abs (num_sub clickLng c0')) (num_lit 180) = false.
Proof.
  revert c0; induction fuel as [|fuel IH]; intros c0; [discriminate|].
  cbn [wrap].
  destruct (num_gt (num_abs (num_sub clickLng c0)) (num_lit 180)) eqn:Hc.
  - apply IH.
  - intros [= <-]. exact Hc.
Qed.


(** The call on an event with a first hit feature whose coordinate array
    starts with [c0]. *)
Lemma getMapLibreCoordinate_hit (fuel : nat) (ll : LngLat num)
  (f0 : MapGeoJSONFeature) (fs : list MapGeoJSONFeature)
  (c0 : num) (rest : list num) h :
  h !! geometry_coordinates f0 = Some (c0 :: rest) ->
  let c := fresh (dom h) in
  getMapLibreCoordinate fuel (mkEvent ll (Some (f0 :: fs))) h
  = (<[c := (wrap fuel (lng ll) c0).1 :: rest]> h,
     if (wrap fuel (lng ll) c0).2
     then Some (Normal (Some (mkPicked c (properties f0))))
     else None).
Proof.
  intros Hc c. unfold getMapLibreCoordinate.
  cbn [features lngLat lookup list_lookup]. rewrite Hc. fold c.
  rewrite (adjust_loop_wrap fuel (lng ll) c0 rest c) by apply lookup_insert_eq.
  rewrite insert_insert_eq. now destruct (wrap fuel (lng ll) c0).2.
Qed.

(** C2, at the input where the code departs from it: an event whose
    feature list is present and empty makes the call throw a [TypeError];
    only an absent list gives the [undefined] result. *)
Theorem getMapLibreCoordinate_empty_features_throws (fuel : nat)
  (ll : LngLat num) h :
  getMapLibreCoordinate fuel (mkEvent ll (Some [])) h
  = (h, Some (Throw (Error "TypeError"
                       "Cannot read properties of undefined (reading 'geometry')")))
  /\ getMapLibreCoordinate fuel (mkEvent ll None) h = (h, Some (Normal None)).
Proof. split; reflexivity. Qed.

(** C9: the call leaves every array of the heap it was given as it was, in
    particular the coordinates stored in the feature, however far the loop
    has run; the array it returns is a new one, not in that heap, and holds
    the elements of the feature's array with only the first one adjusted. *)
Theorem getMapLibreCoordinate_frame (fuel : nat) e h :
  (forall l arr, h !! l = Some arr ->
                 (getMapLibreCoordinate fuel e h).1 !! l = Some arr)
  /\ (forall p, (getMapLibreCoordinate fuel e h).2 = Some (Normal (Some p)) ->
        h !! coordinates p = None
        /\ exists f0 fs arr,
             features e = Some (f0 :: fs)
             /\ picked_properties p = properties f0
             /\ coordinates p <> geometry_coordinates f0
             /\ h !! geometry_coordinates f0 = Some arr
             /\ (getMapLibreCoordinate fuel e h).1 !! geometry_coordinates f0
                = Some arr
             /\ (getMapLibreCoordinate fuel e h).1 !! coordinates p
                = Some match arr with
                       | [] => []
                       | c0 :: rest => (wrap fuel (lng (lngLat e)) c0).1 :: rest
                       end).
Proof.
  assert (forall l arr, h !! l = Some arr -> l <> fresh (dom h)) as Hfresh.
  { intros l arr Hl ->. apply (is_fresh (dom h)). apply elem_of_dom. eauto. }
  assert (h !! fresh (dom h) = None) as Hnew.
  { apply not_elem_of_dom. apply is_fresh. }
  destruct e as [ll [[|f0 fs]|]]; unfold getMapLibreCoordinate;
    cbn [features lngLat lookup list_lookup];
    try (split; [now intros | now intros p]).
  destruct (h !! geometry_coordinates f0) as [arr|] eqn:Hc;
    [|split; [now intros | now intros p]].
  set (c := fresh (dom h)) in *.
  pose proof (adjust_loop_frame fuel (lng ll) c (<[c:=arr]> h)) as Hframe.
  assert ((adjust_loop fuel (lng ll) c (<[c:=arr]> h)).1 !! c
          = Some match arr with
                 | [] => []
                 | c0 :: rest => (wrap fuel (lng ll) c0).1 :: rest
                 end) as Hcell.
  { destruct arr as [|c0 rest].
    - destruct fuel; [simpl; apply lookup_insert_eq|].
      rewrite adjust_loop_empty by apply lookup_insert_eq.
      apply lookup_insert_eq.
    - rewrite (adjust_loop_wrap fuel (lng ll) c0 rest c) by apply lookup_insert_eq.
      apply lookup_insert_eq. }
  destruct (adjust_loop fuel (lng ll) c (<[c:=arr]> h)) as [h2 done] eqn:Hrun.
  cbn [fst snd] in *.
  assert (forall l a, h !! l = Some a -> h2 !! l = Some a) as Hkeep.
  { intros l a Hl. rewrite Hframe by eauto. rewrite lookup_insert_ne; eauto.
    intros Heq. now apply (Hfresh l a). }
  destruct done; cbn [fst snd]; (split; [exact Hkeep|]); [|now intros p].
  intros p [= <-]. cbn [coordinates picked_properties].
  split; [exact Hnew|]. exists f0, fs, arr. repeat split; eauto.
  intros Heq. now apply (Hfresh _ _ Hc).
Qed.

End NormalizerFacts.

(** *** The loop in exact arithmetic *)

Section ExactFacts.

Local Open Scope Q_scope.






End ExactFacts.

(** *** The loop in binary64 arithmetic *)

Section IEEEFacts.

Local Open Scope float_scope.

(** At 1e19 an addition of 360 is absorbed by rounding: the loop makes no
    progress towards a click at 1e20. *)
Lemma wrap_stuck (fuel : nat) : wrap fuel 1e20 1e19 = (1e19, false).
Proof.
  induction fuel as [|fuel IH]; [reflexivity|]. cbn [wrap].
  change (num_gt (num_abs (num_sub 1e20 1e19)) (num_lit 180)) with true.
  change (step 1e20 1e19) with 1e19. exact IH.
Qed.

Example wrap_spec_example : wrap 2 170 (-170) = (190, true).
Proof. reflexivity. Qed.

Example wrap_rounds : wrap 2 400 js_152_2 = (0x1.001999999999ap+9, true).
Proof. reflexivity. Qed.





End IEEEFacts.

(** ** Binary64 arithmetic, from the kernel's specification of it *)

(** *** Digits and canonical form *)

Section Digits.

Lemma digits2_pos_size (m : positive) : digits2_pos m = Pos.size m.
Proof. induction m as [m IH|m IH|]; simpl; now rewrite ?IH. Qed.

Lemma digits2_log2 (m : positive) :
  Zpos (digits2_pos m) = Z.log2 (Zpos m) + 1.
Proof.
  rewrite digits2_pos_size. destruct m as [m|m|]; simpl; lia.
Qed.

Lemma log2_bounds (M : Z) :
  0 < M -> 2 ^ Z.log2 M <= M < 2 ^ (Z.log2 M + 1).
Proof. intros HM. apply (Z.log2_spec M HM). Qed.

Lemma pow2_pos (k : Z) : 0 <= k -> 0 < 2 ^ k.
Proof. intros. apply Z.pow_pos_nonneg; lia. Qed.

Lemma pow2_le (a b : Z) : 0 <= a <= b -> 2 ^ a <= 2 ^ b.
Proof. intros. apply Z.pow_le_mono_r; lia. Qed.

Lemma pow2_lt (a b : Z) : 0 <= a < b -> 2 ^ a < 2 ^ b.
Proof. intros. apply Z.pow_lt_mono_r; lia. Qed.

Lemma pow2_split (a b : Z) : 0 <= a <= b -> 2 ^ b = 2 ^ (b - a) * 2 ^ a.
Proof. intros. rewrite <- Z.pow_add_r by lia. f_equal. lia. Qed.

Lemma pow2_succ (a : Z) : 0 <= a -> 2 ^ (a + 1) = 2 * 2 ^ a.
Proof. intros. rewrite Z.pow_add_r by lia. lia. Qed.

Lemma valid_finite (s : bool) (m : positive) (e : Z) :
  valid_binary (S754_finite s m e) = true ->
  e = Z.max (Z.log2 (Zpos m) + 1 + e - 53) (-1074) /\ e <= 971.
Proof.
  unfold valid_binary, bounded, canonical_mantissa, fexp, SpecFloat.emin.
  rewrite digits2_log2. change prec with 53. change emax with 1024.
  intros Hv. apply andb_true_iff in Hv as [Hc He].
  apply Z.eqb_eq in Hc. apply Z.leb_le in He. lia.
Qed.

End Digits.

Lemma pow2_succ_l (a : Z) : 0 <= a -> 2 ^ (1 + a) = 2 * 2 ^ a.
Proof. intros. rewrite Z.pow_add_r by lia. lia. Qed.

(** *** Shifting and rounding, as [SpecFloat] does them *)

Section Shift.

Lemma iter_pos_iter {A : Type} (f : A -> A) (p : positive) (x : A) :
  SpecFloat.iter_pos f p x = Pos.iter f x p.
Proof.
  revert x; induction p as [p IH|p IH|]; intros x; simpl.
  - rewrite !IH. rewrite <- !Pos.iter_swap. reflexivity.
  - now rewrite !IH.
  - reflexivity.
Qed.

Lemma shr_1_spec (m : Z) (r s : bool) :
  0 <= m ->
  shr_1 (Build_shr_record m r s) = Build_shr_record (m / 2) (Z.odd m) (r || s).
Proof.
  intros Hm. rewrite <- Z.div2_div. destruct m as [|[p|p|]|]; try lia; reflexivity.
Qed.

Lemma mod_pow2_succ (m j : Z) :
  0 <= j ->
  m mod 2 ^ (j + 1) = m mod 2 ^ j + 2 ^ j * Z.b2z (Z.testbit m j).
Proof.
  intros Hj. rewrite Z.testbit_spec' by lia.
  rewrite Z.pow_add_r by lia. change (2 ^ 1) with 2.
  apply Z.rem_mul_r; [apply Z.pow_nonzero; lia | lia].
Qed.

Lemma shr_iter (m : Z) (p : positive) :
  0 <= m ->
  Pos.iter shr_1 (Build_shr_record m false false) p
  = Build_shr_record (m / 2 ^ Zpos p) (Z.testbit m (Zpos p - 1))
      (negb (m mod 2 ^ (Zpos p - 1) =? 0)).
Proof.
  intros Hm. induction p as [|p IH] using Pos.peano_ind.
  - cbn [Pos.iter]. rewrite shr_1_spec by lia.
    change (2 ^ 1) with 2. change (2 ^ (1 - 1)) with 1.
    rewrite Z.mod_1_r, Z.bit0_odd. reflexivity.
  - rewrite Pos.iter_succ, IH.
    rewrite shr_1_spec by (apply Z.div_pos; [lia | apply pow2_pos; lia]).
    rewrite Pos2Z.inj_succ.
    replace (Z.succ (Zpos p) - 1) with (Zpos p) by lia.
    f_equal.
    + rewrite Z.pow_succ_r by lia. rewrite Z.div_div by (try apply pow2_pos; lia).
      f_equal. lia.
    + rewrite Z.testbit_odd, Z.shiftr_div_pow2 by lia. reflexivity.
    + pose proof (mod_pow2_succ m (Zpos p - 1) ltac:(lia)) as Hs.
      replace (Zpos p - 1 + 1) with (Zpos p) in Hs by lia.
      pose proof (Z.mod_pos_bound m (2 ^ (Zpos p - 1)) (pow2_pos (Zpos p - 1) ltac:(lia))) as Hb.
      pose proof (pow2_pos (Zpos p - 1) ltac:(lia)) as Hp.
      destruct (Z.testbit m (Zpos p - 1)); cbn [Z.b2z orb] in *.
      * symmetry. apply negb_true_iff. apply Z.eqb_neq. lia.
      * f_equal. rewrite Hs. f_equal. lia.
Qed.

Lemma rne_0 (m : Z) : rne m 0 = m.
Proof.
  unfold rne. change (2 ^ 0) with 1. rewrite Z.mod_1_r, Z.div_1_r.
  change (2 * 0) with 0. change (1 <? 0) with false. change (1 =? 0) with false.
  cbn [orb andb]. lia.
Qed.

(** Shifting right by [n] bits and rounding to nearest, ties to even, is [rne]. *)
Lemma shr_round (m n e : Z) :
  0 <= m -> 0 <= n ->
  let mrs := (shr (Build_shr_record m false false) e n).1 in
  (shr (Build_shr_record m false false) e n).2 = e + n
  /\ shr_m mrs = m / 2 ^ n
  /\ round_nearest_even (shr_m mrs) (loc_of_shr_record mrs) * 2 ^ n = rne m n.
Proof.
  intros Hm Hn. destruct n as [|p|p]; [| |lia].
  - cbn [shr fst snd shr_m loc_of_shr_record round_nearest_even].
    rewrite rne_0. change (2 ^ 0) with 1. rewrite Z.div_1_r. lia.
  - cbn [shr fst snd]. rewrite iter_pos_iter, shr_iter by lia.
    cbn [shr_m]. split; [reflexivity|]. split; [reflexivity|].
    unfold rne.
    pose proof (mod_pow2_succ m (Zpos p - 1) ltac:(lia)) as Hs.
    replace (Zpos p - 1 + 1) with (Zpos p) in Hs by lia.
    pose proof (Z.mod_pos_bound m (2 ^ (Zpos p - 1)) (pow2_pos (Zpos p - 1) ltac:(lia))) as Hb.
    pose proof (pow2_succ (Zpos p - 1) ltac:(lia)) as Hp.
    replace (Zpos p - 1 + 1) with (Zpos p) in Hp by lia.
    rewrite Hs.
    set (q := m / 2 ^ Zpos p) in *.
    set (t := m mod 2 ^ (Zpos p - 1)) in *.
    set (P := 2 ^ (Zpos p - 1)) in *.
    rewrite Hp.
    destruct (Z.testbit m (Zpos p - 1)); cbn [Z.b2z];
      destruct (Z.eqb_spec t 0) as [Ht|Ht]; cbn [negb loc_of_shr_record round_nearest_even].
    + rewrite Ht. replace (2 * (0 + P * 1)) with (2 * P) by lia.
      rewrite Z.ltb_irrefl, Z.eqb_refl. cbn [orb andb].
      rewrite <- Z.negb_odd. destruct (Z.odd q); reflexivity.
    + replace (2 * P <? 2 * (t + P * 1)) with true
        by (symmetry; apply Z.ltb_lt; lia).
      reflexivity.
    + rewrite Ht. replace (2 * (0 + P * 0)) with 0 by lia.
      replace (2 * P <? 0) with false by (symmetry; apply Z.ltb_ge; lia).
      replace (2 * P =? 0) with false by (symmetry; apply Z.eqb_neq; lia).
      reflexivity.
    + replace (2 * P <? 2 * (t + P * 0)) with false
        by (symmetry; apply Z.ltb_ge; lia).
      replace (2 * P =? 2 * (t + P * 0)) with false
        by (symmetry; apply Z.eqb_neq; lia).
      reflexivity.
Qed.

End Shift.

Section Round.

Lemma iter_xO (m d : positive) : Zpos (Pos.iter xO m d) = Zpos m * 2 ^ Zpos d.
Proof.
  induction d as [|d IH] using Pos.peano_ind.
  - cbn [Pos.iter]. change (2 ^ 1) with 2. lia.
  - rewrite Pos.iter_succ, Pos2Z.inj_xO, IH, Pos2Z.inj_succ, Z.pow_succ_r by lia. lia.
Qed.

Lemma shl_align_spec (m : positive) (e e' : Z) :
  (shl_align m e e').2 = Z.min e e'
  /\ Zpos (shl_align m e e').1 = Zpos m * 2 ^ (e - Z.min e e').
Proof.
  unfold shl_align. destruct (e' - e) as [|d|d] eqn:Hd; cbn [fst snd].
  - replace (Z.min e e') with e by lia. rewrite Z.sub_diag. change (2 ^ 0) with 1. lia.
  - replace (Z.min e e') with e by lia. rewrite Z.sub_diag. change (2 ^ 0) with 1. lia.
  - replace (Z.min e e') with e' by lia. split; [reflexivity|].
    rewrite iter_xO. f_equal. f_equal. lia.
Qed.

Lemma Zdigits2_log2 (z : Z) : 0 < z -> Zdigits2 z = Z.log2 z + 1.
Proof. destruct z as [|p|p]; try lia. intros _. apply digits2_log2. Qed.

Lemma ulp_exp_scaled (m e : Z) :
  0 < m -> -1074 <= e ->
  ulp_exp (m * 2 ^ (e + 1074)) = fexp prec emax (Zdigits2 m + e) + 1074.
Proof.
  intros Hm He. unfold ulp_exp, fexp, SpecFloat.emin.
  change prec with 53. change emax with 1024.
  rewrite Zdigits2_log2 by lia. rewrite Z.log2_mul_pow2 by lia. lia.
Qed.

Lemma rne_cases (m n : Z) :
  rne m n = m / 2 ^ n * 2 ^ n \/ rne m n = (m / 2 ^ n + 1) * 2 ^ n.
Proof. unfold rne. destruct (_ || _); auto. Qed.

Lemma ltb_scale (u v c : Z) : 0 < c -> (u * c <? 2 * (v * c)) = (u <? 2 * v).
Proof.
  intros Hc. destruct (Z.ltb_spec u (2 * v)).
  - apply Z.ltb_lt. nia.
  - apply Z.ltb_ge. nia.
Qed.

Lemma eqb_scale (u v c : Z) : 0 < c -> (u * c =? 2 * (v * c)) = (u =? 2 * v).
Proof.
  intros Hc. destruct (Z.eqb_spec u (2 * v)).
  - apply Z.eqb_eq. nia.
  - apply Z.eqb_neq. nia.
Qed.

Lemma rne_scale (a n x : Z) :
  0 <= n -> 0 <= x -> rne (a * 2 ^ x) (n + x) = rne a n * 2 ^ x.
Proof.
  intros Hn Hx. unfold rne.
  pose proof (pow2_pos x Hx) as Hpx. pose proof (pow2_pos n Hn) as Hpn.
  rewrite Z.pow_add_r by lia.
  rewrite Z.div_mul_cancel_r by lia.
  rewrite Z.mul_mod_distr_r by lia.
  rewrite ltb_scale, eqb_scale by lia.
  destruct (_ || _); lia.
Qed.

End Round.

Section Round2.

Lemma fexp_eq (x : Z) : fexp prec emax x = Z.max (x - 53) (-1074).
Proof. reflexivity. Qed.

(** The second normalisation of [binary_round_aux]: a mantissa of at most
    53 bits at its own exponent is kept; 2^53 moves up one exponent. *)
Lemma shr_fexp_second (m2 f0 : Z) :
  0 < m2 ->
  fexp prec emax (Zdigits2 m2 + f0) = f0 \/ m2 = 2 ^ 53 /\ -1074 <= f0 ->
  exists m3 e3,
    shr_fexp prec emax m2 f0 loc_Exact = (m3, e3)
    /\ 0 < shr_m m3 /\ f0 <= e3 <= f0 + 1
    /\ shr_m m3 * 2 ^ (e3 + 1074) = m2 * 2 ^ (f0 + 1074).
Proof.
  intros Hm2 Hc. unfold shr_fexp. cbn [shr_record_of_loc].
  destruct Hc as [Hc|[Hc Hf]].
  - rewrite Hc, Z.sub_diag. cbn [shr]. eexists _, _. split; [reflexivity|].
    cbn [shr_m]. lia.
  - subst m2. change (Zdigits2 (2 ^ 53)) with 54. rewrite fexp_eq.
    replace (Z.max (54 + f0 - 53) (-1074) - f0) with 1 by lia.
    cbn [shr SpecFloat.iter_pos]. rewrite shr_1_spec by lia.
    eexists _, _. split; [reflexivity|].
    cbn [shr_m]. change (2 ^ 53 / 2) with (2 ^ 52). change (2 ^ 53) with (2 * 2 ^ 52).
    split; [lia|]. split; [lia|].
    rewrite (Z.add_comm f0 1), <- Z.add_assoc, (pow2_succ_l (f0 + 1074)) by lia.
    lia.
Qed.

End Round2.

Section Round3.

Lemma binary_round_spec (s : bool) (m : positive) (e : Z) :
  -1074 <= e -> Zpos m * 2 ^ (e + 1074) < 2 ^ 2096 ->
  exists (p3 : positive) (e3 : Z),
    binary_round prec emax s m e = S754_finite s p3 e3
    /\ Zpos p3 * 2 ^ (e3 + 1074)
       = rne (Zpos m * 2 ^ (e + 1074)) (ulp_exp (Zpos m * 2 ^ (e + 1074))).
Proof.
  intros He HM.
  set (M := Zpos m * 2 ^ (e + 1074)) in *.
  unfold binary_round.
  set (f0 := fexp prec emax (Zpos (digits2_pos m) + e)).
  destruct (shl_align_spec m e f0) as [Hez Hmz].
  destruct (shl_align m e f0) as [mz ez]. cbn [fst snd] in Hez, Hmz.
  assert (Hf0 : -1074 <= f0) by (unfold f0; rewrite fexp_eq; lia).
  assert (Hez' : -1074 <= ez <= f0) by lia.
  assert (HMz : M = Zpos mz * 2 ^ (ez + 1074)).
  { unfold M. rewrite Hmz, <- Z.mul_assoc, <- Z.pow_add_r by lia.
    f_equal. f_equal. lia. }
  assert (Hk : ulp_exp M = f0 + 1074).
  { unfold M. rewrite ulp_exp_scaled by lia. reflexivity. }
  assert (Hfz : fexp prec emax (Zdigits2 (Zpos mz) + ez) = f0).
  { apply (Z.add_cancel_r _ _ 1074). rewrite <- ulp_exp_scaled by lia.
    rewrite <- HMz. exact Hk. }
  assert (Hf971 : f0 + 1 <= 971).
  { assert (Z.log2 M < 2096).
    { apply Z.log2_lt_pow2; [unfold M; pose proof (pow2_pos (e + 1074)); nia | exact HM]. }
    unfold ulp_exp in Hk. lia. }
  unfold binary_round_aux. unfold shr_fexp at 1. cbn [shr_record_of_loc].
  rewrite Hfz.
  destruct (shr_round (Zpos mz) (f0 - ez) ez ltac:(lia) ltac:(lia))
    as (He1 & Hq & Hr).
  destruct (shr (Build_shr_record (Zpos mz) false false) ez (f0 - ez))
    as [mrs' e'].
  cbn [fst snd] in He1, Hq, Hr.
  set (m2 := round_nearest_even (shr_m mrs') (loc_of_shr_record mrs')) in *.
  assert (e' = f0) as -> by lia.
  assert (HRN : rne M (ulp_exp M) = m2 * 2 ^ (f0 + 1074)).
  { rewrite Hk, HMz. replace (f0 + 1074) with ((f0 - ez) + (ez + 1074)) by lia.
    rewrite rne_scale by lia. rewrite <- Hr. rewrite (Z.pow_add_r 2 (f0 - ez) (ez + 1074)) by lia. lia. }
  assert (Hsecond : 0 < m2
                    /\ (fexp prec emax (Zdigits2 m2 + f0) = f0
                        \/ m2 = 2 ^ 53 /\ -1074 <= f0)).
  { clearbody f0 M. destruct (Z.eq_dec f0 ez) as [Heq|Hne].
    - assert (m2 = Zpos mz) as ->.
      { rewrite Heq, Z.sub_diag, rne_0 in Hr. change (2 ^ 0) with 1 in Hr. lia. }
      split; [lia|]. left. rewrite Heq in Hfz |- *. exact Hfz.
    - rewrite fexp_eq, Zdigits2_log2 in Hfz by lia.
      set (n := f0 - ez) in *.
      assert (Hlog : Z.log2 (Zpos mz) = 52 + n) by lia.
      pose proof (log2_bounds (Zpos mz) ltac:(lia)) as Hb.
      rewrite Hlog in Hb.
      rewrite <- Z.add_assoc in Hb.
      rewrite (Z.pow_add_r 2 52 n), (Z.pow_add_r 2 52 (n + 1)) in Hb by lia.
      rewrite (pow2_succ n) in Hb by lia.
      pose proof (pow2_pos n ltac:(lia)) as Hpn.
      assert (Hq1 : 2 ^ 52 <= shr_m mrs').
      { rewrite Hq. apply Z.div_le_lower_bound; lia. }
      assert (Hq2 : shr_m mrs' < 2 ^ 53).
      { rewrite Hq. apply Z.div_lt_upper_bound; [lia|].
        change (2 ^ 53) with (2 * 2 ^ 52). lia. }
      assert (Hm2 : m2 = shr_m mrs' \/ m2 = shr_m mrs' + 1).
      { destruct (rne_cases (Zpos mz) n) as [Hc|Hc]; rewrite <- Hr, <- Hq in Hc;
          apply Z.mul_cancel_r in Hc; lia. }
      split; [lia|].
      destruct (Z.eq_dec m2 (2 ^ 53)) as [He53|Hn53]; [right; lia|left].
      rewrite fexp_eq, Zdigits2_log2 by lia.
      rewrite (Z.log2_unique m2 52); lia. }
  destruct Hsecond as [Hpos Hsecond].
  destruct (shr_fexp_second m2 f0 Hpos Hsecond) as (m3 & e3 & -> & Hm3 & He3 & Hval).
  destruct (shr_m m3) as [|p3|p3]; try lia.
  replace (e3 <=? emax - prec) with true
    by (symmetry; apply Z.leb_le; change (emax - prec) with 971; lia).
  exists p3, e3. split; [reflexivity|]. now rewrite HRN, Hval.
Qed.

(** Rounding an integer, in units of 2^-1074. *)
Lemma binary_normalize_spec (m e : Z) (sz : bool) :
  -1074 <= e -> Z.abs m * 2 ^ (e + 1074) < 2 ^ 2096 ->
  SFfinite (binary_normalize prec emax m e sz) = true
  /\ SF2Z (binary_normalize prec emax m e sz) = RN (m * 2 ^ (e + 1074)).
Proof.
  intros He Hm. pose proof (pow2_pos (e + 1074) ltac:(lia)) as Hp.
  destruct m as [|p|p]; cbn [binary_normalize].
  - split; reflexivity.
  - destruct (binary_round_spec false p e He Hm) as (p3 & e3 & -> & Hv).
    split; [reflexivity|]. cbn [SF2Z cond_Zopp]. rewrite Hv.
    destruct (Zpos p * 2 ^ (e + 1074)) eqn:Hz; try lia. reflexivity.
  - destruct (binary_round_spec true p e He Hm) as (p3 & e3 & -> & Hv).
    split; [reflexivity|]. cbn [SF2Z cond_Zopp]. rewrite Hv.
    replace (Z.neg p * 2 ^ (e + 1074)) with (- (Zpos p * 2 ^ (e + 1074))) by lia.
    destruct (Zpos p * 2 ^ (e + 1074)) eqn:Hz; try lia. reflexivity.
Qed.

End Round3.

(** *** Addition, subtraction and comparison *)

Section Ops.

Lemma RN_opp (M : Z) : RN (- M) = - RN M.
Proof.
  destruct M; cbn [RN Z.opp]; try reflexivity. symmetry. apply Z.opp_involutive.
Qed.

Lemma cond_Zopp_mul (s : bool) (a c : Z) : cond_Zopp s a * c = cond_Zopp s (a * c).
Proof. destruct s; cbn [cond_Zopp]; lia. Qed.

Lemma Z_abs_cond_Zopp (s : bool) (a : Z) : Z.abs (cond_Zopp s a) = Z.abs a.
Proof. destruct s; cbn [cond_Zopp]; lia. Qed.

Lemma RN_pos (M : Z) : 0 < M -> RN M = rne M (ulp_exp M).
Proof. destruct M; try lia. reflexivity. Qed.

(** A binary64 number is its own rounding. *)
Lemma RN_SF2Z (x : spec_float) : valid_binary x = true -> RN (SF2Z x) = SF2Z x.
Proof.
  destruct x as [s|s| |s m e]; try reflexivity. intros Hv.
  apply valid_finite in Hv as [Hc _]. cbn [SF2Z].
  assert (Hpos : RN (Zpos m * 2 ^ (e + 1074)) = Zpos m * 2 ^ (e + 1074)).
  { pose proof (pow2_pos (e + 1074) ltac:(lia)) as Hp.
    rewrite RN_pos by lia. rewrite ulp_exp_scaled by lia. rewrite fexp_eq, Zdigits2_log2 by lia.
    replace (Z.max (Z.log2 (Zpos m) + 1 + e - 53) (-1074)) with e by lia.
    rewrite <- (Z.add_0_l (e + 1074)) at 2.
    rewrite rne_scale by lia. now rewrite rne_0. }
  destruct s; cbn [cond_Zopp]; [|exact Hpos]. now rewrite RN_opp, Hpos.
Qed.

Lemma SF2Z_finite_exp (s : bool) (m : positive) (e : Z) :
  valid_binary (S754_finite s m e) = true -> -1074 <= e.
Proof. intros Hv. apply valid_finite in Hv. lia. Qed.

Lemma shl_align_fst (m : positive) (e ez : Z) :
  ez <= e -> Zpos (shl_align m e ez).1 = Zpos m * 2 ^ (e - ez).
Proof.
  intros H. destruct (shl_align_spec m e ez) as [_ ->]. f_equal. f_equal. lia.
Qed.

Lemma aligned_value (s : bool) (m : positive) (e ez : Z) :
  -1074 <= ez <= e ->
  cond_Zopp s (Zpos (shl_align m e ez).1) * 2 ^ (ez + 1074)
  = cond_Zopp s (Zpos m * 2 ^ (e + 1074)).
Proof.
  intros H. rewrite shl_align_fst by lia. rewrite cond_Zopp_mul. f_equal.
  rewrite <- Z.mul_assoc, <- Z.pow_add_r by lia. f_equal. f_equal. lia.
Qed.

(** Addition rounds the exact sum. *)
Lemma SFadd_spec (x y : spec_float) :
  valid_binary x = true -> valid_binary y = true ->
  SFfinite x = true -> SFfinite y = true ->
  Z.abs (SF2Z x + SF2Z y) < 2 ^ 2096 ->
  SFfinite (SFadd prec emax x y) = true
  /\ SF2Z (SFadd prec emax x y) = RN (SF2Z x + SF2Z y).
Proof.
  intros Hx Hy Fx Fy Hb.
  destruct x as [sx|sx| |sx mx ex]; try discriminate;
    destruct y as [sy|sy| |sy my ey]; try discriminate.
  - split; [now destruct sx, sy|]. now destruct sx, sy.
  - split; [reflexivity|]. cbn [SFadd]. change (SF2Z (S754_zero sx)) with 0.
    rewrite Z.add_0_l. symmetry. now apply RN_SF2Z.
  - split; [reflexivity|]. cbn [SFadd]. change (SF2Z (S754_zero sy)) with 0.
    rewrite Z.add_0_r. symmetry. now apply RN_SF2Z.
  - pose proof (SF2Z_finite_exp _ _ _ Hx) as Hex.
    pose proof (SF2Z_finite_exp _ _ _ Hy) as Hey.
    cbn [SFadd]. cbv zeta.
    set (ez := Z.min ex ey).
    set (m := cond_Zopp sx (Zpos (shl_align mx ex ez).1)
              + cond_Zopp sy (Zpos (shl_align my ey ez).1)).
    assert (Hm : m * 2 ^ (ez + 1074)
                 = SF2Z (S754_finite sx mx ex) + SF2Z (S754_finite sy my ey)).
    { unfold m. rewrite Z.mul_add_distr_r.
      rewrite !aligned_value by (unfold ez; lia). reflexivity. }
    rewrite <- Hm. apply binary_normalize_spec; [unfold ez; lia|].
    rewrite <- Hm in Hb. rewrite Z.abs_mul in Hb.
    rewrite (Z.abs_eq (2 ^ (ez + 1074))) in Hb; [exact Hb|].
    apply Z.lt_le_incl, pow2_pos. unfold ez; lia.
Qed.

(** Subtraction rounds the exact difference. *)
Lemma SFsub_spec (x y : spec_float) :
  valid_binary x = true -> valid_binary y = true ->
  SFfinite x = true -> SFfinite y = true ->
  Z.abs (SF2Z x - SF2Z y) < 2 ^ 2096 ->
  SFfinite (SFsub prec emax x y) = true
  /\ SF2Z (SFsub prec emax x y) = RN (SF2Z x - SF2Z y).
Proof.
  intros Hx Hy Fx Fy Hb.
  destruct x as [sx|sx| |sx mx ex]; try discriminate;
    destruct y as [sy|sy| |sy my ey]; try discriminate.
  - split; [now destruct sx, sy|]. now destruct sx, sy.
  - split; [reflexivity|]. cbn [SFsub]. change (SF2Z (S754_zero sx)) with 0.
    rewrite Z.sub_0_l, RN_opp, (RN_SF2Z _ Hy).
    cbn [SF2Z]. destruct sy; cbn [negb cond_Zopp]; lia.
  - split; [reflexivity|]. cbn [SFsub]. change (SF2Z (S754_zero sy)) with 0.
    rewrite Z.sub_0_r. symmetry. now apply RN_SF2Z.
  - pose proof (SF2Z_finite_exp _ _ _ Hx) as Hex.
    pose proof (SF2Z_finite_exp _ _ _ Hy) as Hey.
    cbn [SFsub]. cbv zeta.
    set (ez := Z.min ex ey).
    set (m := cond_Zopp sx (Zpos (shl_align mx ex ez).1)
              - cond_Zopp sy (Zpos (shl_align my ey ez).1)).
    assert (Hm : m * 2 ^ (ez + 1074)
                 = SF2Z (S754_finite sx mx ex) - SF2Z (S754_finite sy my ey)).
    { unfold m. rewrite Z.mul_sub_distr_r.
      rewrite !aligned_value by (unfold ez; lia). reflexivity. }
    rewrite <- Hm. apply binary_normalize_spec; [unfold ez; lia|].
    rewrite <- Hm in Hb. rewrite Z.abs_mul in Hb.
    rewrite (Z.abs_eq (2 ^ (ez + 1074))) in Hb; [exact Hb|].
    apply Z.lt_le_incl, pow2_pos. unfold ez; lia.
Qed.

End Ops.

Section Order.

(** Of two binary64 numbers in canonical form, the one with the smaller
    exponent is the smaller. *)
Lemma canonical_lt (s1 s2 : bool) (m1 m2 : positive) (e1 e2 : Z) :
  valid_binary (S754_finite s1 m1 e1) = true ->
  valid_binary (S754_finite s2 m2 e2) = true ->
  e1 < e2 ->
  Zpos m1 * 2 ^ (e1 + 1074) < Zpos m2 * 2 ^ (e2 + 1074).
Proof.
  intros H1 H2 He. apply valid_finite in H1 as [H1 _], H2 as [H2 _].
  pose proof (log2_bounds (Zpos m1) ltac:(lia)) as B1.
  pose proof (log2_bounds (Zpos m2) ltac:(lia)) as B2.
  assert (L2 : Z.log2 (Zpos m2) = 52) by lia. rewrite L2 in B2.
  assert (L1 : 2 ^ (Z.log2 (Zpos m1) + 1) <= 2 ^ 53)
    by (apply pow2_le; pose proof (Z.log2_nonneg (Zpos m1)); lia).
  pose proof (pow2_pos (e1 + 1074) ltac:(lia)) as P1.
  pose proof (pow2_le (e1 + 1074 + 1) (e2 + 1074) ltac:(lia)) as P2.
  rewrite pow2_succ in P2 by lia.
  change (2 ^ 53) with (2 * 2 ^ 52) in L1.
  nia.
Qed.

Lemma SFcompare_spec (x y : spec_float) :
  valid_binary x = true -> valid_binary y = true ->
  SFfinite x = true -> SFfinite y = true ->
  SFcompare x y = Some (SF2Z x ?= SF2Z y).
Proof.
  intros Hx Hy Fx Fy.
  destruct x as [sx|sx| |sx mx ex]; try discriminate;
    destruct y as [sy|sy| |sy my ey]; try discriminate; cbn [SFcompare SF2Z].
  - reflexivity.
  - pose proof (SF2Z_finite_exp _ _ _ Hy) as Hey.
    pose proof (pow2_pos (ey + 1074) ltac:(lia)).
    f_equal. symmetry. destruct sy; cbn [cond_Zopp];
      [apply Z.compare_gt_iff | apply Z.compare_lt_iff]; nia.
  - pose proof (SF2Z_finite_exp _ _ _ Hx) as Hex.
    pose proof (pow2_pos (ex + 1074) ltac:(lia)).
    f_equal. symmetry. destruct sx; cbn [cond_Zopp];
      [apply Z.compare_lt_iff | apply Z.compare_gt_iff]; nia.
  - pose proof (SF2Z_finite_exp _ _ _ Hx) as Hex.
    pose proof (SF2Z_finite_exp _ _ _ Hy) as Hey.
    pose proof (pow2_pos (ex + 1074) ltac:(lia)) as Px.
    pose proof (pow2_pos (ey + 1074) ltac:(lia)) as Py.
    f_equal.
    assert (Hcmp : match ex ?= ey with
                   | Eq => Pos.compare_cont Eq mx my
                   | Lt => Lt
                   | Gt => Gt
                   end = (Zpos mx * 2 ^ (ex + 1074) ?= Zpos my * 2 ^ (ey + 1074))).
    { destruct (Z.compare_spec ex ey) as [He|He|He].
      - subst ey. change (Pos.compare_cont Eq mx my) with (Zpos mx ?= Zpos my).
        destruct (Z.compare_spec (Zpos mx) (Zpos my)) as [Hm|Hm|Hm]; symmetry;
          [apply Z.compare_eq_iff | apply Z.compare_lt_iff | apply Z.compare_gt_iff];
          nia.
      - symmetry. apply Z.compare_lt_iff. now apply (canonical_lt sx sy).
      - symmetry. apply Z.compare_gt_iff. now apply (canonical_lt sy sx). }
    destruct sx, sy; cbn [cond_Zopp].
    + rewrite Z.compare_opp. rewrite (Z.compare_antisym (Zpos mx * _)), <- Hcmp.
      now destruct (ex ?= ey).
    + symmetry. apply Z.compare_lt_iff. nia.
    + symmetry. apply Z.compare_gt_iff. nia.
    + exact Hcmp.
Qed.

End Order.

Section FloatFacts.

Local Open Scope float_scope.

Lemma finite_valid (x : float) : valid_binary (Prim2SF x) = true.
Proof. apply Prim2SF_valid. Qed.

Lemma ulps_RN (x : float) : RN (ulps x) = ulps x.
Proof. apply RN_SF2Z, Prim2SF_valid. Qed.

Lemma ltb_ulps (x y : float) :
  finite64 x = true -> finite64 y = true -> (x <? y) = (ulps x <? ulps y)%Z.
Proof.
  intros Fx Fy. rewrite ltb_spec. unfold SFltb.
  rewrite SFcompare_spec by (try apply Prim2SF_valid; assumption).
  unfold Z.ltb, ulps. now destruct (_ ?= _)%Z.
Qed.

Lemma leb_ulps (x y : float) :
  finite64 x = true -> finite64 y = true -> (x <=? y) = (ulps x <=? ulps y)%Z.
Proof.
  intros Fx Fy. rewrite FloatAxioms.leb_spec. unfold SFleb.
  rewrite SFcompare_spec by (try apply Prim2SF_valid; assumption).
  unfold Z.leb, ulps. now destruct (_ ?= _)%Z.
Qed.

Lemma abs_ulps (x : float) :
  finite64 (abs x) = finite64 x /\ ulps (abs x) = Z.abs (ulps x).
Proof.
  unfold finite64, ulps. rewrite abs_spec.
  destruct (Prim2SF x) as [s|s| |s m e]; cbn [SFabs SFfinite SF2Z cond_Zopp];
    try (split; reflexivity).
  split; [reflexivity|]. rewrite Z_abs_cond_Zopp. lia.
Qed.

Lemma add_ulps (x y : float) :
  finite64 x = true -> finite64 y = true ->
  (Z.abs (ulps x + ulps y) < 2 ^ 2096)%Z ->
  finite64 (x + y) = true /\ ulps (x + y) = RN (ulps x + ulps y).
Proof.
  intros Fx Fy Hb. unfold finite64, ulps. rewrite add_spec.
  apply SFadd_spec; try apply Prim2SF_valid; assumption.
Qed.

Lemma sub_ulps (x y : float) :
  finite64 x = true -> finite64 y = true ->
  (Z.abs (ulps x - ulps y) < 2 ^ 2096)%Z ->
  finite64 (x - y) = true /\ ulps (x - y) = RN (ulps x - ulps y).
Proof.
  intros Fx Fy Hb. unfold finite64, ulps. rewrite sub_spec.
  apply SFsub_spec; try apply Prim2SF_valid; assumption.
Qed.

(** A number whose magnitude is at most that of a finite64 number is finite64. *)
Lemma leb_abs_finite (x b : float) :
  finite64 b = true -> (abs x <=? b) = true ->
  finite64 x = true /\ (Z.abs (ulps x) <= ulps b)%Z.
Proof.
  intros Fb Hle.
  assert (Fx : finite64 x = true).
  { rewrite FloatAxioms.leb_spec, abs_spec in Hle. unfold finite64 in *.
    destruct (Prim2SF x) as [s|s| |s m e]; try reflexivity.
    - destruct (Prim2SF b) as [sb|sb| |sb mb eb]; try discriminate.
    - discriminate. }
  split; [exact Fx|].
  destruct (abs_ulps x) as [Fa Ha]. rewrite <- Ha.
  rewrite leb_ulps in Hle by (rewrite ?Fa; assumption).
  now apply Z.leb_le.
Qed.

End FloatFacts.

(** *** Properties of rounding *)

Section Rounding.

(** [rne M k] is the multiple of [2^k] below [M] or the next one, whichever
    is nearer; halfway, the even one. *)
Lemma rne_decomp (M k : Z) :
  0 <= k ->
  exists q r up : Z,
    M = q * 2 ^ k + r /\ 0 <= r < 2 ^ k
    /\ rne M k = (q + up) * 2 ^ k
    /\ (up = 0 /\ 2 * r <= 2 ^ k \/ up = 1 /\ 2 ^ k <= 2 * r)
    /\ (2 * r = 2 ^ k -> (up = 1 <-> Z.odd q = true)).
Proof.
  intros Hk. pose proof (pow2_pos k Hk) as Hp.
  exists (M / 2 ^ k), (M mod 2 ^ k).
  pose proof (Z.div_mod M (2 ^ k) ltac:(lia)) as Hdm.
  pose proof (Z.mod_pos_bound M (2 ^ k) Hp) as Hb.
  unfold rne.
  destruct (Z.ltb_spec (2 ^ k) (2 * (M mod 2 ^ k))) as [Hlt|Hge]; cbn [orb].
  - exists 1. repeat split; lia.
  - destruct (Z.eqb_spec (2 ^ k) (2 * (M mod 2 ^ k))) as [Heq|Hne]; cbn [andb].
    + destruct (Z.odd (M / 2 ^ k)) eqn:Ho.
      * exists 1. repeat split; lia.
      * exists 0. repeat split; try lia; discriminate.
    + exists 0. repeat split; lia.
Qed.

Lemma ulp_exp_nonneg (M : Z) : 0 <= ulp_exp M.
Proof. unfold ulp_exp. lia. Qed.

(** The rounding error is at most half a unit in the last place. *)
Lemma RN_err (S : Z) : 2 * Z.abs (RN S - S) <= 2 ^ ulp_exp (Z.abs S).
Proof.
  assert (Hpos : forall M, 0 < M -> 2 * Z.abs (RN M - M) <= 2 ^ ulp_exp M).
  { intros M HM. rewrite RN_pos by lia.
    destruct (rne_decomp M (ulp_exp M) (ulp_exp_nonneg M))
      as (q & r & up & HMq & Hr & -> & Hup & _). lia. }
  destruct (Z.lt_trichotomy S 0) as [Hs|[->|Hs]].
  - replace S with (- (- S)) at 1 2 by lia. rewrite RN_opp.
    rewrite (Z.abs_neq S) by lia.
    specialize (Hpos (- S) ltac:(lia)). lia.
  - cbn. lia.
  - rewrite (Z.abs_eq S) by lia. now apply Hpos.
Qed.

(** A rounded number is a multiple of its unit in the last place. *)
Lemma RN_multiple (S : Z) : exists t : Z, RN S = t * 2 ^ ulp_exp (Z.abs S).
Proof.
  assert (Hpos : forall M, 0 < M -> exists t, RN M = t * 2 ^ ulp_exp M).
  { intros M HM. rewrite RN_pos by lia.
    destruct (rne_decomp M (ulp_exp M) (ulp_exp_nonneg M))
      as (q & r & up & HMq & Hr & -> & Hup & _). now exists (q + up). }
  destruct (Z.lt_trichotomy S 0) as [Hs|[->|Hs]].
  - destruct (Hpos (- S) ltac:(lia)) as [t Ht]. exists (- t).
    replace S with (- (- S)) at 1 by lia. rewrite RN_opp, Ht.
    rewrite (Z.abs_neq S) by lia. lia.
  - exists 0. reflexivity.
  - rewrite (Z.abs_eq S) by lia. now apply Hpos.
Qed.

Lemma rne_half_le (M k v : Z) :
  1 <= k -> M < v * 2 ^ (k - 1) -> rne M k <= v * 2 ^ (k - 1).
Proof.
  intros Hk HV.
  pose proof (pow2_pos (k - 1) ltac:(lia)) as Hh.
  pose proof (pow2_succ (k - 1) ltac:(lia)) as Hp.
  replace (k - 1 + 1) with k in Hp by lia.
  destruct (rne_decomp M k ltac:(lia)) as (q & r & up & HMq & Hr & -> & Hup & _).
  rewrite Hp in *. set (h := 2 ^ (k - 1)) in *.
  destruct Hup as [[-> Hu]|[-> Hu]].
  - nia.
  - assert (2 * q + 1 < v) by nia. nia.
Qed.

Lemma rne_half_ge (M k v : Z) :
  1 <= k -> v * 2 ^ (k - 1) < M -> v * 2 ^ (k - 1) <= rne M k.
Proof.
  intros Hk HV.
  pose proof (pow2_pos (k - 1) ltac:(lia)) as Hh.
  pose proof (pow2_succ (k - 1) ltac:(lia)) as Hp.
  replace (k - 1 + 1) with k in Hp by lia.
  destruct (rne_decomp M k ltac:(lia)) as (q & r & up & HMq & Hr & -> & Hup & _).
  rewrite Hp in *. set (h := 2 ^ (k - 1)) in *.
  destruct Hup as [[-> Hu]|[-> Hu]].
  - assert (v < 2 * q + 1) by nia. nia.
  - nia.
Qed.

(** Rounding does not cross a multiple of half a unit in the last place. *)
Lemma RN_half_le (S v : Z) :
  1 <= ulp_exp (Z.abs S) ->
  S < v * 2 ^ (ulp_exp (Z.abs S) - 1) ->
  RN S <= v * 2 ^ (ulp_exp (Z.abs S) - 1).
Proof.
  intros Hk HV.
  destruct (Z.lt_trichotomy S 0) as [Hs|[Hs|Hs]].
  - replace S with (- (- S)) at 1 by lia. rewrite RN_opp, RN_pos by lia.
    rewrite (Z.abs_neq S) in * by lia.
    pose proof (rne_half_ge (- S) (ulp_exp (- S)) (- v) Hk ltac:(lia)). lia.
  - subst S. cbn [RN]. lia.
  - rewrite RN_pos by lia. rewrite (Z.abs_eq S) in * by lia.
    now apply rne_half_le.
Qed.

Lemma RN_half_ge (S v : Z) :
  1 <= ulp_exp (Z.abs S) ->
  v * 2 ^ (ulp_exp (Z.abs S) - 1) < S ->
  v * 2 ^ (ulp_exp (Z.abs S) - 1) <= RN S.
Proof.
  intros Hk HV.
  pose proof (RN_half_le (- S) (- v)) as H.
  rewrite Z.abs_opp, RN_opp in H. specialize (H Hk). lia.
Qed.

End Rounding.

Section Thresholds.

Lemma ulp_exp_le (M j : Z) : 0 <= j -> M < 2 ^ (j + 53) -> ulp_exp M <= j.
Proof.
  intros Hj HM. unfold ulp_exp.
  destruct (Z.le_gt_cases M 0) as [H0|H0].
  - rewrite Z.log2_nonpos by lia. lia.
  - apply Z.log2_lt_pow2 in HM; lia.
Qed.

Lemma ulp_exp_ge (M j : Z) : 2 ^ (j + 52) <= M -> j <= ulp_exp M.
Proof.
  intros HM. unfold ulp_exp.
  destruct (Z.le_gt_cases 0 (j + 52)) as [H0|H0].
  - pose proof (pow2_pos (j + 52) H0).
    apply Z.log2_le_pow2 in HM; lia.
  - lia.
Qed.

Lemma ulp_exp_pos_bounds (M : Z) :
  1 <= ulp_exp M -> 2 ^ (ulp_exp M + 52) <= M < 2 ^ (ulp_exp M + 53).
Proof.
  intros Hk. unfold ulp_exp in *.
  assert (0 < M).
  { destruct (Z.le_gt_cases M 0) as [H0|H0]; [|exact H0].
    rewrite Z.log2_nonpos in Hk by lia. lia. }
  pose proof (log2_bounds M ltac:(lia)) as Hb.
  replace (Z.max 0 (Z.log2 M + 1 - 53) + 52) with (Z.log2 M) by lia.
  replace (Z.max 0 (Z.log2 M + 1 - 53) + 53) with (Z.log2 M + 1) by lia.
  exact Hb.
Qed.

(** A difference of at most 180 + 2^-46 rounds to at most 180. *)
Lemma RN_threshold (M : Z) :
  Z.abs M <= 180 * 2 ^ 1074 + 2 ^ 1028 -> Z.abs (RN M) <= 180 * 2 ^ 1074.
Proof.
  assert (Hpos : forall M, 0 < M -> M <= 180 * 2 ^ 1074 + 2 ^ 1028 ->
                           0 <= RN M <= 180 * 2 ^ 1074).
  { intros M0 H0 Hle.
    assert (Hk : ulp_exp M0 <= 1029).
    { apply ulp_exp_le; [lia|]. change (1029 + 53) with 1082. lia. }
    pose proof (ulp_exp_nonneg M0) as Hk0.
    pose proof (RN_err M0) as He. rewrite (Z.abs_eq M0) in He by lia.
    pose proof (pow2_le (ulp_exp M0) 1029 ltac:(lia)) as Hp.
    destruct (Z.le_gt_cases M0 (180 * 2 ^ 1074 - 2 ^ 1028)) as [Hlow|Hhigh].
    - split; [|lia].
      rewrite RN_pos by lia.
      destruct (rne_decomp M0 (ulp_exp M0) Hk0) as (q & r & up & HMq & Hr & -> & Hup & _).
      pose proof (pow2_pos (ulp_exp M0) Hk0) as HP.
      assert (0 <= q) by (clear - HMq Hr H0 HP; nia).
      clear - H HP Hup. nia.
    - assert (Hk' : ulp_exp M0 = 1029).
      { apply Z.le_antisymm; [exact Hk|]. apply ulp_exp_ge.
        change (1029 + 52) with 1081. lia. }
      rewrite RN_pos by lia. rewrite Hk'.
      destruct (rne_decomp M0 1029 ltac:(lia)) as (q & r & up & HMq & Hr & -> & Hup & Htie).
      assert (Ht : 180 * 2 ^ 1074 = (180 * 2 ^ 45) * 2 ^ 1029) by reflexivity.
      assert (Hh : 2 ^ 1029 = 2 * 2 ^ 1028) by reflexivity.
      assert (Hq : 0 <= q <= 180 * 2 ^ 45) by nia.
      split; [nia|].
      destruct (Z.eq_dec q (180 * 2 ^ 45)) as [->|Hne]; [|nia].
      destruct Hup as [[-> _]|[-> Hu]]; [lia|].
      assert (2 * r = 2 ^ 1029) as Hr2 by lia.
      apply Htie in Hr2. destruct Hr2 as [Hr2 _]. specialize (Hr2 eq_refl).
      discriminate Hr2. }
  intros HM. destruct (Z.lt_trichotomy M 0) as [Hs|[->|Hs]].
  - replace M with (- (- M)) by lia. rewrite RN_opp.
    specialize (Hpos (- M) ltac:(lia) ltac:(lia)). lia.
  - cbn. lia.
  - specialize (Hpos M ltac:(lia) ltac:(lia)). lia.
Qed.

End Thresholds.

Section Overshoot.

Lemma ulp_exp_lt_pow (M : Z) : M < 2 ^ (ulp_exp M + 53).
Proof.
  pose proof (ulp_exp_nonneg M) as Hk.
  destruct (Z.le_gt_cases M 0) as [H0|H0].
  - pose proof (pow2_pos (ulp_exp M + 53) ltac:(lia)). lia.
  - apply Z.log2_lt_pow2; [lia|]. unfold ulp_exp. lia.
Qed.

(** Below 2^54 the rounding error is at most 1. *)
Lemma RN_near (S : Z) :
  Z.abs S < 2 ^ 1128 -> S - 2 ^ 1074 <= RN S <= S + 2 ^ 1074.
Proof.
  intros HS.
  assert (Hk : ulp_exp (Z.abs S) <= 1075).
  { apply ulp_exp_le; [lia|]. change (1075 + 53) with 1128. lia. }
  pose proof (ulp_exp_nonneg (Z.abs S)) as Hk0.
  pose proof (RN_err S) as He.
  pose proof (pow2_le (ulp_exp (Z.abs S)) 1075 ltac:(lia)) as Hp.
  change (2 ^ 1075) with (2 * 2 ^ 1074) in Hp. lia.
Qed.

(** A step of 360 towards a click that is more than 180 + 2^-46 away does
    not end more than 180 + 2^-46 beyond it. *)
Lemma RN_no_overshoot (C S : Z) :
  RN C = C -> Z.abs S < 2 ^ 1128 ->
  S < C + 180 * 2 ^ 1074 - 2 ^ 1028 ->
  RN S <= C + 180 * 2 ^ 1074 + 2 ^ 1028.
Proof.
  intros HC HS Hlt.
  set (k := ulp_exp (Z.abs S)).
  assert (Hk : k <= 1075).
  { apply ulp_exp_le; [lia|]. change (1075 + 53) with 1128. lia. }
  pose proof (ulp_exp_nonneg (Z.abs S)) as Hk0. fold k in Hk0.
  pose proof (RN_err S) as He. fold k in He.
  destruct (Z.le_gt_cases k 1030) as [Hsmall|Hbig].
  { pose proof (pow2_le k 1030 ltac:(lia)) as Hp.
    change (2 ^ 1030) with (4 * 2 ^ 1028) in Hp. lia. }
  set (kC := ulp_exp (Z.abs C)).
  pose proof (ulp_exp_nonneg (Z.abs C)) as HkC0. fold kC in HkC0.
  destruct (RN_multiple C) as [t Ht]. rewrite HC in Ht. fold kC in Ht.
  destruct (Z.le_gt_cases (k - 1) kC) as [Hdiv|Hndiv].
  - pose proof (pow2_split (k - 1) kC ltac:(lia)) as HpC.
    pose proof (pow2_split (k - 1) 1074 ltac:(lia)) as HpU.
    pose proof (RN_half_le S (t * 2 ^ (kC - (k - 1)) + 180 * 2 ^ (1074 - (k - 1)))
                  ltac:(fold k; lia)) as Hh.
    fold k in Hh.
    assert (Heq : (t * 2 ^ (kC - (k - 1)) + 180 * 2 ^ (1074 - (k - 1))) * 2 ^ (k - 1)
                  = C + 180 * 2 ^ 1074).
    { rewrite Ht, HpC, HpU. ring. }
    rewrite Heq in Hh. specialize (Hh ltac:(lia)). lia.
  - pose proof (ulp_exp_pos_bounds (Z.abs S) ltac:(fold k; lia)) as [HSlo HShi].
    fold k in HSlo, HShi.
    pose proof (ulp_exp_lt_pow (Z.abs C)) as HClt. fold kC in HClt.
    pose proof (pow2_le (kC + 53) (k + 51) ltac:(lia)) as H1.
    pose proof (pow2_le 1082 (k + 51) ltac:(lia)) as H2.
    pose proof (pow2_succ (k + 51) ltac:(lia)) as H3.
    replace (k + 51 + 1) with (k + 52) in H3 by lia.
    assert (H180 : 180 * 2 ^ 1074 < 2 ^ 1082) by lia.
    destruct (Z.lt_trichotomy S 0) as [Hs|[Hs|Hs]].
    + pose proof (pow2_lt (k - 1) (k + 51) ltac:(lia)) as H4.
      pose proof (pow2_split (k - 1) (k + 52) ltac:(lia)) as H5.
      replace (k + 52 - (k - 1)) with 53 in H5 by lia.
      pose proof (RN_half_le S (- 2 ^ 53 + 1) ltac:(fold k; lia)) as Hh.
      fold k in Hh.
      assert (S < (- 2 ^ 53 + 1) * 2 ^ (k - 1)) as Hv by lia.
      specialize (Hh Hv). lia.
    + subst S. cbn in Hbig. unfold k in Hbig. cbn in Hbig. lia.
    + lia.
Qed.

End Overshoot.

Section Converse.

(** A difference above 180 + 2^-46 rounds to more than 180. *)
Lemma RN_above_threshold (M : Z) :
  180 * 2 ^ 1074 + 2 ^ 1028 < Z.abs M -> 180 * 2 ^ 1074 < Z.abs (RN M).
Proof.
  assert (Hpos : forall M, 180 * 2 ^ 1074 + 2 ^ 1028 < M -> 180 * 2 ^ 1074 < RN M).
  { intros M0 Hgt.
    pose proof (RN_err M0) as He. rewrite (Z.abs_eq M0) in He by lia.
    assert (Hk : 1029 <= ulp_exp M0).
    { apply ulp_exp_ge. change (1029 + 52) with 1081. lia. }
    pose proof (ulp_exp_pos_bounds M0 ltac:(lia)) as [Hlo _].
    pose proof (pow2_split (ulp_exp M0 - 1) (ulp_exp M0 + 52) ltac:(lia)) as Hs.
    replace (ulp_exp M0 + 52 - (ulp_exp M0 - 1)) with 53 in Hs by lia.
    pose proof (pow2_succ (ulp_exp M0 - 1) ltac:(lia)) as Hd.
    replace (ulp_exp M0 - 1 + 1) with (ulp_exp M0) in Hd by lia.
    pose proof (pow2_le 1028 (ulp_exp M0 - 1) ltac:(lia)) as Hp.
    destruct (Z.eq_dec (ulp_exp M0) 1029) as [Heq|Hne].
    - rewrite Heq in He. change (2 ^ 1029) with (2 * 2 ^ 1028) in He. lia.
    - pose proof (pow2_le 1029 (ulp_exp M0 - 1) ltac:(lia)) as Hp'.
      assert (180 * 2 ^ 1074 = 180 * 2 ^ 45 * 2 ^ 1029) as -> by reflexivity.
      set (h := 2 ^ (ulp_exp M0 - 1)) in *. set (P := 2 ^ 1029) in *.
      assert (RN M0 >= (2 ^ 53 - 1) * h) by lia.
      assert ((2 ^ 53 - 1) * h >= (2 ^ 53 - 1) * P) by nia.
      assert (0 < P) by (apply pow2_pos; lia).
      lia. }
  intros HM. destruct (Z.lt_trichotomy M 0) as [Hs|[->|Hs]].
  - replace M with (- (- M)) by lia. rewrite RN_opp, Z.abs_opp.
    specialize (Hpos (- M) ltac:(lia)). lia.
  - cbn in HM. lia.
  - specialize (Hpos M ltac:(lia)). lia.
Qed.

Lemma condZ_false (C X : Z) :
  condZ C X = false -> Z.abs (C - X) <= 180 * 2 ^ 1074 + 2 ^ 1028.
Proof.
  unfold condZ. intros Hc. apply Z.ltb_ge in Hc.
  destruct (Z.le_gt_cases (Z.abs (C - X)) (180 * 2 ^ 1074 + 2 ^ 1028)) as [Hle|Hgt];
    [exact Hle|].
  apply RN_above_threshold in Hgt. lia.
Qed.

End Converse.

(** *** The longitude loop on integers *)

Section IntegerLoop.

Lemma condZ_true (C X : Z) :
  condZ C X = true -> 180 * 2 ^ 1074 + 2 ^ 1028 < Z.abs (C - X).
Proof.
  unfold condZ. intros Hc. apply Z.ltb_lt in Hc.
  destruct (Z.le_gt_cases (Z.abs (C - X)) (180 * 2 ^ 1074 + 2 ^ 1028)) as [Hle|Hgt];
    [|exact Hgt].
  apply RN_threshold in Hle. lia.
Qed.

Lemma condZ_opp (C X : Z) : condZ (- C) (- X) = condZ C X.
Proof.
  unfold condZ. replace (- C - - X) with (- (C - X)) by lia.
  now rewrite RN_opp, Z.abs_opp.
Qed.

Lemma nextZ_opp (C X : Z) : X <> C -> nextZ (- C) (- X) = - nextZ C X.
Proof.
  intros Hne. unfold nextZ. rewrite <- RN_opp. f_equal.
  destruct (Z.ltb_spec (- X) (- C)), (Z.ltb_spec X C); lia.
Qed.

Lemma Halts_opp (C X : Z) : Halts C X -> Halts (- C) (- X).
Proof.
  induction 1 as [X Hb Hc|X Hb Hc Hn IH].
  - apply Halts_exit; [now rewrite Z.abs_opp | now rewrite condZ_opp].
  - apply Halts_step; [now rewrite Z.abs_opp | now rewrite condZ_opp |].
    rewrite nextZ_opp; [exact IH|].
    intros ->. apply condZ_true in Hc. rewrite Z.sub_diag in Hc. cbn in Hc. lia.
Qed.

(** While the click is ahead, every step gains at least 359 and none
    passes the click by more than 180 + 2^-46. *)
Lemma up_phase (C : Z) (n : nat) (X : Z) :
  RN C = C -> Z.abs C <= 2 ^ 1127 ->
  - 2 ^ 1127 <= X ->
  X - C <= 180 * 2 ^ 1074 + 2 ^ 1028 ->
  C - X <= 180 * 2 ^ 1074 + 2 ^ 1028 + Z.of_nat n * (359 * 2 ^ 1074) ->
  Halts C X.
Proof.
  intros HC HCb. revert X. induction n as [|n IH]; intros X HX Hinv Hn.
  - apply Halts_exit; [lia|].
    destruct (condZ C X) eqn:Hc; [|reflexivity].
    apply condZ_true in Hc. lia.
  - destruct (condZ C X) eqn:Hc; [|apply Halts_exit; [lia|exact Hc]].
    pose proof (condZ_true C X Hc) as Hfar.
    assert (Hlt : X < C) by lia.
    apply Halts_step; [lia|exact Hc|].
    unfold nextZ. replace (X <? C) with true by (symmetry; apply Z.ltb_lt; lia).
    pose proof (RN_near (X + 360 * 2 ^ 1074) ltac:(lia)) as Hnear.
    pose proof (RN_no_overshoot C (X + 360 * 2 ^ 1074) HC ltac:(lia) ltac:(lia)) as Hno.
    apply IH; lia.
Qed.

(** In the safe-integer range the loop is left. *)
Lemma Halts_bounded (C X : Z) :
  RN C = C -> Z.abs C <= 2 ^ 1127 -> Z.abs X <= 2 ^ 1127 -> Halts C X.
Proof.
  intros HC HCb HXb.
  destruct (Z.le_gt_cases (X - C) (180 * 2 ^ 1074 + 2 ^ 1028)) as [Hup|Hdown].
  - apply (up_phase C (Z.to_nat (Z.abs (C - X)))); lia.
  - rewrite <- (Z.opp_involutive C), <- (Z.opp_involutive X). apply Halts_opp.
    apply (up_phase (- C) (Z.to_nat (Z.abs (C - X)))); try lia.
    now rewrite RN_opp, HC.
Qed.

End IntegerLoop.

(** *** The longitude loop in binary64 *)

Section Simulation.

Local Open Scope float_scope.

Lemma ulps_180 : ulps (float_of_Z 180) = (180 * 2 ^ 1074)%Z.
Proof. vm_compute. reflexivity. Qed.

Lemma ulps_360 : ulps (float_of_Z 360) = (360 * 2 ^ 1074)%Z.
Proof. vm_compute. reflexivity. Qed.

Lemma ulps_m360 : ulps (float_of_Z (-360)) = (- (360 * 2 ^ 1074))%Z.
Proof. vm_compute. reflexivity. Qed.

Lemma ulps_2p53 : ulps 0x1p53 = (2 ^ 1127)%Z.
Proof. vm_compute. reflexivity. Qed.

(** The loop condition is the one of the integer loop. *)
Lemma cond_ulps (c x : float) :
  finite64 c = true -> finite64 x = true ->
  (Z.abs (ulps c) <= 2 ^ 1127)%Z -> (Z.abs (ulps x) < 2 ^ 1128)%Z ->
  num_gt (num_abs (num_sub c x)) (num_lit 180) = condZ (ulps c) (ulps x)
  /\ (abs (c - x) <=? 180) = negb (condZ (ulps c) (ulps x)).
Proof.
  intros Fc Fx Hc Hx. cbn [num_gt num_abs num_sub num_lit IEEE].
  destruct (sub_ulps c x Fc Fx ltac:(lia)) as [Fs Hs].
  destruct (abs_ulps (c - x)) as [Fa Ha]. rewrite Fs in Fa.
  change 180 with (float_of_Z 180).
  rewrite ltb_ulps, leb_ulps by (assumption || reflexivity).
  rewrite Ha, Hs, ulps_180. unfold condZ.
  split; [reflexivity|]. apply Z.leb_antisym.
Qed.

(** A step of the loop is a step of the integer loop. *)
Lemma step_ulps (c x : float) :
  finite64 c = true -> finite64 x = true ->
  (Z.abs (ulps c) <= 2 ^ 1127)%Z -> (Z.abs (ulps x) < 2 ^ 1128)%Z ->
  finite64 (step c x) = true /\ ulps (step c x) = nextZ (ulps c) (ulps x).
Proof.
  intros Fc Fx Hc Hx. unfold step, nextZ. cbn [num_gt num_add num_lit IEEE].
  rewrite ltb_ulps by assumption.
  destruct (ulps x <? ulps c)%Z.
  - rewrite <- ulps_360. apply add_ulps; [assumption|reflexivity|].
    rewrite ulps_360. lia.
  - rewrite <- ulps_m360. apply add_ulps; [assumption|reflexivity|].
    rewrite ulps_m360. lia.
Qed.

Lemma wrap_halts (c : float) (X : Z) :
  finite64 c = true -> (Z.abs (ulps c) <= 2 ^ 1127)%Z ->
  Halts (ulps c) X ->
  forall x, finite64 x = true -> ulps x = X ->
  exists fuel x',
    wrap fuel c x = (x', true)
    /\ (abs (c - x') <=? 180) = true
    /\ finite64 x' = true
    /\ (Z.abs (ulps c - ulps x') <= 180 * 2 ^ 1074 + 2 ^ 1028)%Z.
Proof.
  intros Fc Hc. induction 1 as [X Hb Hcond|X Hb Hcond Hn IH]; intros x Fx Hx; subst X.
  - destruct (cond_ulps c x Fc Fx Hc Hb) as [Hg Hl].
    exists 1%nat, x. cbn [wrap]. rewrite Hg, Hcond. split; [reflexivity|].
    split; [now rewrite Hl, Hcond|]. split; [exact Fx|].
    now apply condZ_false.
  - destruct (cond_ulps c x Fc Fx Hc Hb) as [Hg _].
    destruct (step_ulps c x Fc Fx Hc Hb) as [Fs Hs].
    destruct (IH (step c x) Fs Hs) as (fuel & x' & Hw & Hd).
    exists (S fuel), x'. cbn [wrap]. rewrite Hg, Hcond. split; assumption.
Qed.

(** The binary64 loop is left whenever the click longitude and the
    feature longitude have magnitude at most 2^53. *)
Lemma wrap_terminates (c x : float) :
  (abs c <=? 0x1p53) = true -> (abs x <=? 0x1p53) = true ->
  exists fuel x',
    wrap fuel c x = (x', true)
    /\ (abs (c - x') <=? 180) = true
    /\ finite64 c = true /\ finite64 x' = true
    /\ (Z.abs (ulps c - ulps x') <= 180 * 2 ^ 1074 + 2 ^ 1028)%Z.
Proof.
  intros Hc Hx.
  apply leb_abs_finite in Hc as [Fc Hc]; [|reflexivity].
  apply leb_abs_finite in Hx as [Fx Hx]; [|reflexivity].
  rewrite ulps_2p53 in Hc, Hx.
  destruct (wrap_halts c (ulps x) Fc Hc) with (x := x)
    as (fuel & x' & Hw & Hd & Fx' & He); [|exact Fx|reflexivity|].
  - apply Halts_bounded; [apply ulps_RN|exact Hc|exact Hx].
  - now exists fuel, x'.
Qed.

End Simulation.

Section ExactValue.

(** The exact value of a finite64 number is its count of units of 2^-1074. *)
Lemma float_to_Q_ulps (x : float) :
  finite64 x = true ->
  exists q : Q,
    float_to_Q x = Some q /\ (q * inject_Z (2 ^ 1074) == inject_Z (ulps x))%Q.
Proof.
  unfold finite64, ulps, float_to_Q. pose proof (Prim2SF_valid x) as Hv.
  destruct (Prim2SF x) as [s|s| |s m e]; try discriminate; intros _.
  - exists 0%Q. split; [reflexivity|]. cbn [SF2Z]. reflexivity.
  - apply valid_finite in Hv as [He _]. assert (Hlo : -1074 <= e) by lia. clear He.
    eexists. split; [reflexivity|]. cbn [SF2Z].
    assert (Hmag : ((if 0 <=? e then inject_Z (Zpos m * 2 ^ e)
                     else Zpos m # Pos.pow 2 (Z.to_pos (- e))) * inject_Z (2 ^ 1074)
                    == inject_Z (Zpos m * 2 ^ (e + 1074)))%Q).
    { destruct (Z.leb_spec 0 e) as [Hpos|Hneg].
      - rewrite <- inject_Z_mult. rewrite Z.pow_add_r by lia.
        now rewrite Z.mul_assoc.
      - unfold Qeq, Qmult, inject_Z. cbn [Qnum Qden].
        rewrite Pos.mul_1_r, Z.mul_1_r, Pos2Z.inj_pow, Z2Pos.id by lia.
        rewrite <- !Z.mul_assoc. f_equal. rewrite <- Z.pow_add_r by lia.
        f_equal. lia. }
    destruct s; cbn [cond_Zopp]; [|exact Hmag].
    rewrite inject_Z_opp, <- Hmag. ring.
Qed.

(** A bound on the difference in units of 2^-1074 is a bound on the exact
    difference. *)
Lemma exact_difference (c x : float) :
  finite64 c = true -> finite64 x = true ->
  Z.abs (ulps c - ulps x) <= 180 * 2 ^ 1074 + 2 ^ 1028 ->
  exists q q' : Q,
    float_to_Q c = Some q /\ float_to_Q x = Some q'
    /\ (Qabs (q - q') <= 180 + (1 # 2 ^ 46))%Q.
Proof.
  intros Fc Fx Hd.
  destruct (float_to_Q_ulps c Fc) as (q & Hq & Hqu).
  destruct (float_to_Q_ulps x Fx) as (q' & Hq' & Hqu').
  exists q, q'. split; [exact Hq|]. split; [exact Hq'|].
  assert (HU : (0 < inject_Z (2 ^ 1074))%Q).
  { change 0%Q with (inject_Z 0). rewrite <- Zlt_Qlt. apply pow2_pos. lia. }
  apply (Qmult_le_r _ _ (inject_Z (2 ^ 1074)) HU).
  rewrite <- (Qabs_pos (inject_Z (2 ^ 1074))) at 1 by (apply Qlt_le_weak, HU).
  rewrite <- Qabs_Qmult.
  assert (((q - q') * inject_Z (2 ^ 1074) == inject_Z (ulps c - ulps x)))%Q as ->.
  { unfold Z.sub. rewrite inject_Z_plus, inject_Z_opp, <- Hqu, <- Hqu'. ring. }
  assert (((180 + (1 # 2 ^ 46)) * inject_Z (2 ^ 1074)
           == inject_Z (180 * 2 ^ 1074 + 2 ^ 1028)))%Q as ->.
  { vm_compute. reflexivity. }
  change (Qabs (inject_Z (ulps c - ulps x)))
    with (inject_Z (Z.abs (ulps c - ulps x))).
  rewrite <- Zle_Qle. exact Hd.
Qed.

End ExactValue.

(** C6, as the code has it, in binary64 arithmetic.  For a click longitude
    and a feature longitude of magnitude at most 2^53 the loop is left: the
    call returns, the difference it computes between the click longitude
    and the adjusted longitude is at most 180, and their exact difference
    is at most 180 + 2^-46.  For all longitudes, whenever the loop is left
    the difference it computed is not above 180.  For the click 170 and the
    feature longitude -170 the loop is left with 190. *)
Theorem getMapLibreCoordinate_wraps_within_180 :
  (forall (ll : LngLat float) (f0 : MapGeoJSONFeature)
          (fs : list MapGeoJSONFeature) (c0 : float) (rest : list float)
          (h : gmap loc (list float)),
      h !! geometry_coordinates f0 = Some (c0 :: rest) ->
      (PrimFloat.abs (lng ll) <=? 0x1p53)%float = true ->
      (PrimFloat.abs c0 <=? 0x1p53)%float = true ->
      exists fuel h' p c0',
        getMapLibreCoordinate fuel (mkEvent ll (Some (f0 :: fs))) h
        = (h', Some (Normal (Some p)))
        /\ picked_properties p = properties f0
        /\ h' !! coordinates p = Some (c0' :: rest)
        /\ (PrimFloat.abs (lng ll - c0') <=? 180)%float = true
        /\ exists q q' : Q,
             float_to_Q (lng ll) = Some q /\ float_to_Q c0' = Some q'
             /\ (Qabs (q - q') <= 180 + (1 # 2 ^ 46))%Q)
  /\ (forall (fuel : nat) (ll : LngLat float) (f0 : MapGeoJSONFeature)
             (fs : list MapGeoJSONFeature) (c0 : float) (rest : list float)
             (h h' : gmap loc (list float)) (p : Picked),
         h !! geometry_coordinates f0 = Some (c0 :: rest) ->
         getMapLibreCoordinate fuel (mkEvent ll (Some (f0 :: fs))) h
         = (h', Some (Normal (Some p))) ->
         exists c0',
           h' !! coordinates p = Some (c0' :: rest)
           /\ PrimFloat.ltb 180 (PrimFloat.abs (PrimFloat.sub (lng ll) c0')) = false)
  /\ (exists h',
         getMapLibreCoordinate 2 (point_event 170%float 0%float)
           (point_heap (-170)%float 5%float)
         = (h', Some (Normal (Some (mkPicked 2%positive []))))
         /\ h' !! 2%positive = Some [190; 5]%float).
Proof.
  split; [|split].
  - intros ll f0 fs c0 rest h Hc Hll Hc0.
    destruct (wrap_terminates (lng ll) c0 Hll Hc0)
      as (fuel & c0' & Hw & Hd & Fc & Fx & He).
    exists fuel, (<[fresh (dom h) := c0' :: rest]> h),
      (mkPicked (fresh (dom h)) (properties f0)), c0'.
    rewrite (getMapLibreCoordinate_hit fuel ll f0 fs c0 rest h Hc), Hw.
    cbn [fst snd coordinates picked_properties].
    repeat split; [apply lookup_insert_eq | exact Hd |].
    now apply exact_difference.
  - intros fuel ll f0 fs c0 rest h h' p Hc.
    rewrite (getMapLibreCoordinate_hit fuel ll f0 fs c0 rest h Hc).
    destruct (wrap fuel (lng ll) c0) as [c0' done] eqn:Hw. cbn [fst snd].
    destruct done; [|discriminate]. intros [= <- <-]. exists c0'.
    cbn [coordinates]. split; [apply lookup_insert_eq|].
    apply (wrap_exit fuel (lng ll) c0 c0' Hw).
  - eexists. split; [vm_compute; reflexivity|]. vm_compute. reflexivity.
Qed.

Lemma getMapLibreCoordinate_wraps_within_180_witness :
  exists fuel h' p c0',
    getMapLibreCoordinate fuel (point_event 170.5%float 0%float)
      (point_heap (-170.25)%float 5%float)
    = (h', Some (Normal (Some p)))
    /\ picked_properties p = []
    /\ h' !! coordinates p = Some [c0'; 5%float]
    /\ (PrimFloat.abs (170.5 - c0') <=? 180)%float = true
    /\ exists q q' : Q,
         float_to_Q 170.5%float = Some q /\ float_to_Q c0' = Some q'
         /\ (Qabs (q - q') <= 180 + (1 # 2 ^ 46))%Q.
Proof.
  apply (proj1 getMapLibreCoordinate_wraps_within_180
           (mkLngLat 170.5 0)%float (mkFeature 1%positive []) []
           (-170.25)%float [5%float]); reflexivity.
Defined.

(** C6 fails in binary64 arithmetic: 1e20 and 1e19 are finite, and the call
    with that click longitude and feature longitude returns for no amount of
    fuel. *)
Lemma getMapLibreCoordinate_large_longitudes_never_return :
  PrimFloat.is_finite 1e20%float = true
  /\ PrimFloat.is_finite 1e19%float = true
  /\ ~ (exists fuel h' r,
           getMapLibreCoordinate fuel (point_event 1e20%float 0%float)
             (point_heap 1e19%float 0%float)
           = (h', Some r)).
Proof.
  split; [reflexivity|]. split; [reflexivity|].
  intros (fuel & h' & r & Hrun). unfold point_event in Hrun.
  rewrite (getMapLibreCoordinate_hit fuel _ _ _ 1e19%float [0%float]) in Hrun
    by reflexivity.
  cbn [lng] in Hrun. rewrite wrap_stuck in Hrun. discriminate Hrun.
Qed.




(** * Further properties of the code *)

(** ** Order on binary64 numbers *)

Section FloatOrder.

Lemma SFcompare_refl (s : spec_float) : s <> S754_nan -> SFcompare s s = Some Eq.
Proof.
  destruct s as [sg|sg| |sg m e]; intros Hs; try congruence; try reflexivity.
  - now destruct sg.
  - simpl. rewrite Z.compare_refl, Pos.compare_cont_refl. now destruct sg.
Qed.

Lemma SFleb_trans (a b c : spec_float) :
  SFleb a b = true -> SFleb b c = true -> SFleb a c = true.
Proof.
  unfold SFleb.
  destruct a as [sa|sa| |sa ma ea], b as [sb|sb| |sb mb eb], c as [sc|sc| |sc mc ec];
    try destruct sa; try destruct sb; try destruct sc; simpl;
    try discriminate; try reflexivity; try (intros; assumption).
  all: rewrite ?Pos.compare_cont_spec; simpl.
  all: destruct (Z.compare_spec ea eb), (Z.compare_spec eb ec), (Z.compare_spec ea ec);
    try discriminate; try reflexivity; try lia; subst.
  all: destruct (Pos.compare_spec ma mb), (Pos.compare_spec mb mc),
         (Pos.compare_spec ma mc);
    simpl; try discriminate; try reflexivity; try lia.
Qed.

Lemma is_nan_spec (x : float) : PrimFloat.is_nan x = true <-> Prim2SF x = S754_nan.
Proof.
  unfold PrimFloat.is_nan. rewrite FloatAxioms.eqb_spec. unfold SFeqb. split.
  - destruct (Prim2SF x) eqn:E; try reflexivity;
      rewrite SFcompare_refl; simpl; congruence.
  - intros ->. reflexivity.
Qed.

Lemma leb_trans (x y z : float) :
  PrimFloat.leb x y = true -> PrimFloat.leb y z = true -> PrimFloat.leb x z = true.
Proof. rewrite !FloatAxioms.leb_spec. apply SFleb_trans. Qed.

Lemma leb_refl (x : float) : PrimFloat.is_nan x = false -> PrimFloat.leb x x = true.
Proof.
  intros Hx. rewrite FloatAxioms.leb_spec. unfold SFleb. rewrite SFcompare_refl; [reflexivity|].
  intros Hn. apply is_nan_spec in Hn. congruence.
Qed.

Lemma leb_not_nan (x y : float) :
  PrimFloat.leb x y = true -> PrimFloat.is_nan x = false /\ PrimFloat.is_nan y = false.
Proof.
  rewrite FloatAxioms.leb_spec. unfold SFleb. intros Hle.
  split; apply not_true_is_false; intros Hn; apply is_nan_spec in Hn;
    rewrite Hn in Hle; [|destruct (Prim2SF x)]; discriminate.
Qed.

End FloatOrder.

(** ** The point-in-box test *)

Section WithinBbox.

Local Open Scope float_scope.

(** The examples of the specification. *)
Example isWithinBbox_spec_inside :
  isWithinBbox (mkLngLat 10 10) [0; 0; 20; 20] = true.
Proof. reflexivity. Qed.

Example isWithinBbox_spec_outside :
  isWithinBbox (mkLngLat 21 10) [0; 0; 20; 20] = false.
Proof. reflexivity. Qed.

(** The test on a box of at least four numbers is the four comparisons. *)
Lemma isWithinBbox_four (p : LngLat float) (a b c d : float) (rest : list float) :
  isWithinBbox p (a :: b :: c :: d :: rest) = true
  <-> (a <=? lng p) = true /\ (lng p <=? c) = true
      /\ (b <=? lat p) = true /\ (lat p <=? d) = true.
Proof.
  unfold isWithinBbox. cbn [lookup list_lookup ge_element le_element].
  rewrite !andb_true_iff. tauto.
Qed.

(** A point is within a box only if the box has its four numbers, none of
    them NaN, with each minimum at most the maximum, and the point itself
    has no NaN coordinate: a box whose minimum longitude exceeds its
    maximum (one written across the antimeridian) contains no point. *)
Theorem isWithinBbox_needs_ordered_box (p : LngLat float) (bbox : list float) :
  isWithinBbox p bbox = true ->
  exists a b c d rest,
    bbox = a :: b :: c :: d :: rest
    /\ (a <=? c) = true /\ (b <=? d) = true
    /\ PrimFloat.is_nan (lng p) = false /\ PrimFloat.is_nan (lat p) = false.
Proof.
  intros Hin.
  destruct bbox as [|a [|b [|c [|d rest]]]];
    try (unfold isWithinBbox in Hin; cbn [lookup list_lookup ge_element le_element] in Hin;
         rewrite ?andb_false_r in Hin; discriminate Hin).
  apply isWithinBbox_four in Hin as (Ha & Hc & Hb & Hd).
  exists a, b, c, d, rest. repeat split.
  - exact (leb_trans _ _ _ Ha Hc).
  - exact (leb_trans _ _ _ Hb Hd).
  - exact (proj1 (leb_not_nan _ _ Hc)).
  - exact (proj1 (leb_not_nan _ _ Hd)).
Qed.

Lemma isWithinBbox_needs_ordered_box_witness :
  exists a b c d rest,
    [0; 0; 20; 20] = a :: b :: c :: d :: rest
    /\ (a <=? c) = true /\ (b <=? d) = true
    /\ PrimFloat.is_nan 10 = false /\ PrimFloat.is_nan 10 = false.
Proof.
  apply (isWithinBbox_needs_ordered_box (mkLngLat 10 10) [0; 0; 20; 20]).
  reflexivity.
Defined.

(** Both ends are inclusive: the four corners of a box whose minima are at
    most its maxima are within it. *)
Theorem isWithinBbox_corners (a b c d : float) (rest : list float) :
  (a <=? c) = true -> (b <=? d) = true ->
  isWithinBbox (mkLngLat a b) (a :: b :: c :: d :: rest) = true
  /\ isWithinBbox (mkLngLat c d) (a :: b :: c :: d :: rest) = true
  /\ isWithinBbox (mkLngLat a d) (a :: b :: c :: d :: rest) = true
  /\ isWithinBbox (mkLngLat c b) (a :: b :: c :: d :: rest) = true.
Proof.
  intros Hac Hbd.
  destruct (leb_not_nan _ _ Hac) as [Ha Hc], (leb_not_nan _ _ Hbd) as [Hb Hd].
  repeat split; apply isWithinBbox_four; cbn [lng lat];
    repeat split; auto using leb_refl.
Qed.

Lemma isWithinBbox_corners_witness :
  isWithinBbox (mkLngLat 0 0) [0; 0; 20; 20] = true
  /\ isWithinBbox (mkLngLat 20 20) [0; 0; 20; 20] = true
  /\ isWithinBbox (mkLngLat 0 20) [0; 0; 20; 20] = true
  /\ isWithinBbox (mkLngLat 20 0) [0; 0; 20; 20] = true.
Proof. apply (isWithinBbox_corners 0 0 20 20 []); reflexivity. Defined.

(** A point within a box is within every box that encloses it. *)
Theorem isWithinBbox_monotone (p : LngLat float) (a b c d a' b' c' d' : float)
  (rest rest' : list float) :
  isWithinBbox p (a :: b :: c :: d :: rest) = true ->
  (a' <=? a) = true -> (b' <=? b) = true ->
  (c <=? c') = true -> (d <=? d') = true ->
  isWithinBbox p (a' :: b' :: c' :: d' :: rest') = true.
Proof.
  intros (Ha & Hc & Hb & Hd)%isWithinBbox_four Ha' Hb' Hc' Hd'.
  apply isWithinBbox_four. repeat split; eauto using leb_trans.
Qed.

Lemma isWithinBbox_monotone_witness :
  isWithinBbox (mkLngLat 10 10) [-1; -1; 21; 21] = true.
Proof.
  apply (isWithinBbox_monotone (mkLngLat 10 10) 0 0 20 20 (-1) (-1) 21 21 [] []);
    reflexivity.
Defined.

End WithinBbox.

(** ** The polygon bounds *)

Section PolygonBoundsFacts.

Variable Coord : Type.
Variable Bounds : Type.
Variable LngLatBounds_new : option Coord -> option Coord -> Bounds.
Variable extend : Bounds -> Coord -> Bounds.

(** What the bounds object promises: extending by a coordinate makes the
    bounds contain it and loses nothing they contained. *)
Variable contains : Bounds -> Coord -> Prop.
Hypothesis extend_contains : forall b c, contains (extend b c) c.
Hypothesis extend_keeps : forall b c p, contains b p -> contains (extend b c) p.

Lemma fold_extend_contains (ring : list Coord) (b : Bounds) (p : Coord) :
  contains b p \/ In p ring ->
  contains (fold_left (fun bounds coord => extend bounds coord) ring b) p.
Proof using extend_contains extend_keeps.
  revert b; induction ring as [|c ring IH]; intros b Hp; simpl.
  - destruct Hp as [Hb|[]]. exact Hb.
  - apply IH. destruct Hp as [Hb|[->|Hin]]; auto.
Qed.

(** The bounds of a polygon contain every coordinate of its first ring,
    whatever the constructor made of the first coordinate; the rings after
    the first (the holes) play no part. *)
Theorem getPolygonBoundingBox_contains_ring (ring : list Coord)
  (holes : list (list Coord)) (p : Coord) :
  In p ring ->
  exists bounds,
    getPolygonBoundingBox Coord Bounds LngLatBounds_new extend (ring :: holes)
    = Normal bounds
    /\ getPolygonBoundingBox Coord Bounds LngLatBounds_new extend [ring]
       = Normal bounds
    /\ contains bounds p.
Proof using extend_contains extend_keeps.
  intros Hin. eexists. split; [reflexivity|]. split; [reflexivity|].
  apply fold_extend_contains. now right.
Qed.

End PolygonBoundsFacts.

Lemma getPolygonBoundingBox_contains_ring_witness :
  exists bounds,
    getPolygonBoundingBox Z (option (Z * Z)) interval_new interval_extend
      [[3; -2; 7]; [100]] = Normal bounds
    /\ getPolygonBoundingBox Z (option (Z * Z)) interval_new interval_extend
         [[3; -2; 7]] = Normal bounds
    /\ interval_contains bounds (-2).
Proof.
  apply (getPolygonBoundingBox_contains_ring Z (option (Z * Z)) interval_new
           interval_extend interval_contains).
  - intros [[lo hi]|] c; simpl; lia.
  - intros [[lo hi]|] c p; simpl; lia.
  - simpl. tauto.
Defined.

(** A polygon without any ring makes the call throw. *)
Example getPolygonBoundingBox_no_ring :
  getPolygonBoundingBox Z (option (Z * Z)) interval_new interval_extend []
  = Throw (Error "TypeError" "Cannot read properties of undefined (reading 'reduce')").
Proof. reflexivity. Qed.

(** ** The spatial file loader, further *)

Section LoaderMore.

Variable JSON_parse : string -> Completion JSValue.
Variable Document : Type.
Variable DOMParser_parseFromString : string -> Completion Document.
Variable toGeoJSON_kml : Document -> Completion JSValue.
Variable shp : string -> Completion JSValue.
Variable NotReadable : JSError.

Local Abbreviation load :=
  (getGeojsonData JSON_parse Document DOMParser_parseFromString toGeoJSON_kml
     shp NotReadable).

(** A name that passes a read path's own suffix check is detected as that
    path's format, and passes the check of no other read path. *)
Theorem read_path_check_implies_detection (f : File) (tag : SpatialFileEnum) :
  JS.endsWith (name f) (enum_value tag) = true ->
  getSpatialFileType (Some f) = Some tag
  /\ forall tag', JS.endsWith (name f) (enum_value tag') = true -> tag' = tag.
Proof.
  intros Hs. pose proof (endsWith_getSpatialFileType f tag Hs) as Hd.
  split; [exact Hd|]. intros tag' Hs'.
  pose proof (endsWith_getSpatialFileType f tag' Hs'). congruence.
Qed.

Lemma read_path_check_implies_detection_witness :
  getSpatialFileType (Some (mkFile "city.v2.kml" None)) = Some KML
  /\ forall tag', JS.endsWith "city.v2.kml" (enum_value tag') = true -> tag' = KML.
Proof.
  apply (read_path_check_implies_detection (mkFile "city.v2.kml" None) KML).
  reflexivity.
Defined.

(** A call issues at most one read, and only on the file it was given: as
    text when the file is detected as [.geojson] or [.kml], as binary when
    it is detected as [.zip]; a call that reads nothing is rejected. *)
Theorem getGeojsonData_reads (inputFile : option File) :
  (length (load inputFile).1 <= 1)%nat
  /\ (forall io, In io (load inputFile).1 ->
        exists f, inputFile = Some f
          /\ ((io = ReadAsText (name f)
               /\ (getSpatialFileType inputFile = Some GEOJSON
                   \/ getSpatialFileType inputFile = Some KML))
              \/ (io = ReadArrayBuffer (name f)
                  /\ getSpatialFileType inputFile = Some ZIP)))
  /\ ((load inputFile).1 = [] -> exists r, (load inputFile).2 = Rejected r).
Proof.
  rewrite getGeojsonData_dispatch.
  destruct inputFile as [f|]; [|simpl; repeat split; [lia | tauto | eauto]].
  destruct (getSpatialFileType (Some f)) as [[]|] eqn:Hd;
    unfold readGeojsonFile, readKmlFile, readShpInZipFile;
    try destruct (JS.endsWith (name f) _); cbn [fst snd length In];
    (repeat split; [lia | | first [discriminate | eauto]]);
    intros io Hio; try tauto; destruct Hio as [<-|[]]; exists f; split; auto.
Qed.

(** The loader resolves only to what the converter of a read path returned
    for the content of a file whose name ends, letter for letter, in that
    path's extension, after the one read of that path. *)
Theorem getGeojsonData_resolved (inputFile : option File) (reads : list IO)
  (geoJson : JSValue) :
  load inputFile = (reads, Resolved geoJson) ->
  exists f data,
    inputFile = Some f /\ content f = Some data
    /\ ((JS.endsWith (name f) ".geojson" = true
         /\ reads = [ReadAsText (name f)]
         /\ JSON_parse data = Normal geoJson)
        \/ (JS.endsWith (name f) ".kml" = true
            /\ reads = [ReadAsText (name f)]
            /\ bind (DOMParser_parseFromString data) toGeoJSON_kml = Normal geoJson)
        \/ (JS.endsWith (name f) ".zip" = true
            /\ reads = [ReadArrayBuffer (name f)]
            /\ shp data = Normal geoJson)).
Proof.
  rewrite getGeojsonData_dispatch.
  destruct inputFile as [f|]; [|discriminate].
  destruct (getSpatialFileType (Some f)) as [[]|]; [| | |discriminate];
    unfold readGeojsonFile, readKmlFile, readShpInZipFile, onload_geojson, onload_kml;
    destruct (JS.endsWith (name f) _) eqn:Hs; try discriminate;
    destruct (content f) as [data|] eqn:Hc; try discriminate.
  - destruct (shp data) eqn:Hp; [|discriminate]. intros [= <- <-].
    exists f, data. split; [reflexivity|]. split; [exact Hc|]. right. right. now repeat split.
  - destruct (bind _ _) eqn:Hp; [|discriminate]. intros [= <- <-].
    exists f, data. split; [reflexivity|]. split; [exact Hc|]. right. left. now repeat split.
  - destruct (JSON_parse data) eqn:Hp; [|discriminate]. intros [= <- <-].
    exists f, data. split; [reflexivity|]. split; [exact Hc|]. left. now repeat split.
Qed.

(** A [.geojson] file with a lowercase extension and readable content is
    read once as text and settles as [JSON.parse] completes: resolved with
    the parsed value, or rejected with the error the parser threw. *)
Theorem getGeojsonData_geojson_settles (f : File) (text : string) :
  JS.endsWith (name f) ".geojson" = true ->
  content f = Some text ->
  load (Some f)
  = ([ReadAsText (name f)],
     match JSON_parse text with
     | Normal geoJson => Resolved geoJson
     | Throw error => Rejected (RError error)
     end).
Proof.
  intros Hs Hc. rewrite getGeojsonData_dispatch.
  rewrite (endsWith_getSpatialFileType f GEOJSON Hs).
  unfold readGeojsonFile, onload_geojson. now rewrite Hs, Hc.
Qed.

(** A [.kml] file with a lowercase extension and readable content is read
    once as text and settles as the XML parser followed by the KML
    converter completes. *)
Theorem getGeojsonData_kml_settles (f : File) (text : string) :
  JS.endsWith (name f) ".kml" = true ->
  content f = Some text ->
  load (Some f)
  = ([ReadAsText (name f)],
     match bind (DOMParser_parseFromString text) toGeoJSON_kml with
     | Normal geoJson => Resolved geoJson
     | Throw error => Rejected (RError error)
     end).
Proof.
  intros Hs Hc. rewrite getGeojsonData_dispatch.
  rewrite (endsWith_getSpatialFileType f KML Hs).
  unfold readKmlFile, onload_kml. now rewrite Hs, Hc.
Qed.

(** A [.zip] file with a lowercase extension and readable content is read
    once as a binary buffer and settles as the shapefile decoder does. *)
Theorem getGeojsonData_zip_settles (f : File) (resData : string) :
  JS.endsWith (name f) ".zip" = true ->
  content f = Some resData ->
  load (Some f)
  = ([ReadArrayBuffer (name f)],
     match shp resData with
     | Normal geoJson => Resolved geoJson
     | Throw error => Rejected (RError error)
     end).
Proof.
  intros Hs Hc. rewrite getGeojsonData_dispatch.
  rewrite (endsWith_getSpatialFileType f ZIP Hs).
  unfold readShpInZipFile. now rewrite Hs, Hc.
Qed.

(** When the content cannot be read: the text paths have no error handler
    on their reader, so the promise never settles; the binary path rejects
    with the read's error. *)
Theorem getGeojsonData_unreadable (f : File) :
  content f = None ->
  (JS.endsWith (name f) ".geojson" = true \/ JS.endsWith (name f) ".kml" = true ->
   load (Some f) = ([ReadAsText (name f)], Pending))
  /\ (JS.endsWith (name f) ".zip" = true ->
      load (Some f) = ([ReadArrayBuffer (name f)], Rejected (RError NotReadable))).
Proof.
  intros Hc. rewrite getGeojsonData_dispatch. split.
  - intros [Hs|Hs].
    + rewrite (endsWith_getSpatialFileType f GEOJSON Hs).
      unfold readGeojsonFile. now rewrite Hs, Hc.
    + rewrite (endsWith_getSpatialFileType f KML Hs).
      unfold readKmlFile. now rewrite Hs, Hc.
  - intros Hs. rewrite (endsWith_getSpatialFileType f ZIP Hs).
    unfold readShpInZipFile. now rewrite Hs, Hc.
Qed.

End LoaderMore.

Lemma getGeojsonData_resolved_witness :
  exists f data,
    Some (mkFile "x.geojson" (Some "{}")) = Some f /\ content f = Some data
    /\ ((JS.endsWith (name f) ".geojson" = true
         /\ [ReadAsText "x.geojson"] = [ReadAsText (name f)]
         /\ demo_parse data = Normal (JObj []))
        \/ (JS.endsWith (name f) ".kml" = true
            /\ [ReadAsText "x.geojson"] = [ReadAsText (name f)]
            /\ bind (Normal data) demo_parse = Normal (JObj []))
        \/ (JS.endsWith (name f) ".zip" = true
            /\ [ReadAsText "x.geojson"] = [ReadArrayBuffer (name f)]
            /\ demo_parse data = Normal (JObj []))).
Proof.
  apply (getGeojsonData_resolved demo_parse string (fun text => Normal text)
           demo_parse demo_parse (Error "NotReadableError" "")).
  reflexivity.
Defined.

Lemma getGeojsonData_geojson_settles_witness :
  demo_load (Some (mkFile "x.geojson" (Some "not json")))
  = ([ReadAsText "x.geojson"],
     Rejected (RError (Error "SyntaxError" "Unexpected token"))).
Proof.
  exact (getGeojsonData_geojson_settles demo_parse string (fun text => Normal text)
           demo_parse demo_parse (Error "NotReadableError" "")
           (mkFile "x.geojson" (Some "not json")) "not json" eq_refl eq_refl).
Defined.

Lemma getGeojsonData_kml_settles_witness :
  demo_load (Some (mkFile "track.kml" (Some "{}")))
  = ([ReadAsText "track.kml"], Resolved (JObj [])).
Proof.
  exact (getGeojsonData_kml_settles demo_parse string (fun text => Normal text)
           demo_parse demo_parse (Error "NotReadableError" "")
           (mkFile "track.kml" (Some "{}")) "{}" eq_refl eq_refl).
Defined.

Lemma getGeojsonData_zip_settles_witness :
  demo_load (Some (mkFile "parcels.zip" (Some "PK")))
  = ([ReadArrayBuffer "parcels.zip"],
     Rejected (RError (Error "SyntaxError" "Unexpected token"))).
Proof.
  exact (getGeojsonData_zip_settles demo_parse string (fun text => Normal text)
           demo_parse demo_parse (Error "NotReadableError" "")
           (mkFile "parcels.zip" (Some "PK")) "PK" eq_refl eq_refl).
Defined.

Lemma getGeojsonData_unreadable_witness :
  demo_load (Some (mkFile "x.geojson" None)) = ([ReadAsText "x.geojson"], Pending)
  /\ demo_load (Some (mkFile "parcels.zip" None))
     = ([ReadArrayBuffer "parcels.zip"],
        Rejected (RError (Error "NotReadableError" ""))).
Proof.
  split.
  - apply (proj1 (getGeojsonData_unreadable demo_parse string
                    (fun text => Normal text) demo_parse demo_parse
                    (Error "NotReadableError" "") (mkFile "x.geojson" None) eq_refl)).
    left. reflexivity.
  - apply (proj2 (getGeojsonData_unreadable demo_parse string
                    (fun text => Normal text) demo_parse demo_parse
                    (Error "NotReadableError" "") (mkFile "parcels.zip" None) eq_refl)).
    reflexivity.
Defined.

Lemma getGeojsonData_capitalised_witness :
  getSpatialFileType (Some (mkFile "Map.GeoJson" (Some "{}"))) = Some GEOJSON
  /\ demo_load (Some (mkFile "Map.GeoJson" (Some "{}")))
     = ([], Rejected (RString "Please upload a valid .geojson file.")).
Proof.
  apply (getGeojsonData_capitalised demo_parse string (fun text => Normal text)
           demo_parse demo_parse (Error "NotReadableError" "")
           (mkFile "Map.GeoJson" (Some "{}")) GEOJSON ".GeoJson").
  - reflexivity.
  - cbv. intuition.
  - discriminate.
Defined.

(** ** Format detection, further *)

Section DetectionMore.

Local Open Scope string_scope.

Lemma toLowerChar_dot (c : ascii) :
  Ascii.eqb (JS.toLowerChar c) "." = Ascii.eqb c ".".
Proof. destruct c as [[] [] [] [] [] [] [] []]; reflexivity. Qed.

Lemma toLowerChar_idem (c : ascii) :
  JS.toLowerChar (JS.toLowerChar c) = JS.toLowerChar c.
Proof. destruct c as [[] [] [] [] [] [] [] []]; reflexivity. Qed.

Lemma toLowerCase_idem (s : string) :
  JS.toLowerCase (JS.toLowerCase s) = JS.toLowerCase s.
Proof.
  induction s as [|c s IH]; simpl; [reflexivity|].
  now rewrite toLowerChar_idem, IH.
Qed.

Lemma lastIndexOf_from_toLowerCase (s : string) (i found : Z) :
  JS.lastIndexOf_from (JS.toLowerCase s) "." i found
  = JS.lastIndexOf_from s "." i found.
Proof.
  revert i found; induction s as [|c s IH]; intros i found; simpl; [reflexivity|].
  now rewrite toLowerChar_dot, IH.
Qed.

Lemma substring_toLowerCase (s : string) (n m : nat) :
  substring n m (JS.toLowerCase s) = JS.toLowerCase (substring n m s).
Proof.
  revert n m; induction s as [|c s IH]; intros [|n] [|m]; simpl;
    try reflexivity; now rewrite IH.
Qed.

Lemma slice_toLowerCase (s : string) (start : Z) :
  JS.slice (JS.toLowerCase s) start = JS.toLowerCase (JS.slice s start).
Proof.
  unfold JS.slice. rewrite toLowerCase_length. apply substring_toLowerCase.
Qed.

(** Detection does not depend on the letter case of any part of the name
    (nor on the content): the name in lowercase is detected as the name
    itself is. *)
Theorem getSpatialFileType_case_insensitive (fileName : string)
  (data data' : option string) :
  getSpatialFileType (Some (mkFile (JS.toLowerCase fileName) data))
  = getSpatialFileType (Some (mkFile fileName data')).
Proof.
  unfold getSpatialFileType, JS.lastIndexOf. cbn [name].
  now rewrite lastIndexOf_from_toLowerCase, slice_toLowerCase, toLowerCase_idem.
Qed.

End DetectionMore.

(** ** The label extractor, further *)

Section LabelMore.

Local Open Scope string_scope.

Lemma get_In (obj : ObjectLiteral) (key : string) :
  truthy (get obj key) = true -> In (key, get obj key) obj.
Proof.
  unfold get. destruct (own obj key) as [v|] eqn:Hk; [|discriminate].
  intros _. now apply own_In.
Qed.

(** The label is either [undefined] or a truthy value that the object holds
    under one of its keys: a falsy value is never returned as a label and
    no value is made up. *)
Theorem extractLabelValueFromObj_truthy_or_undefined (obj : ObjectLiteral) :
  extractLabelValueFromObj obj = JUndefined
  \/ (truthy (extractLabelValueFromObj obj) = true
      /\ exists key, In (key, extractLabelValueFromObj obj) obj).
Proof.
  unfold extractLabelValueFromObj.
  destruct (List.find _ preferredKeys) as [key|] eqn:Hp.
  - apply find_some in Hp as [_ [_ Ht]%andb_true_iff].
    right. split; [exact Ht|]. exists key. now apply get_In.
  - destruct (List.find _ (keys obj)) as [key|] eqn:Hk; [|now left].
    apply find_some in Hk as [_ Ht].
    destruct (truthy (JStr key)); [|now left].
    right. split; [exact Ht|]. exists key. now apply get_In.
Qed.

End LabelMore.

Lemma extractLabel_preferred_witness :
  extractLabelValueFromObj
    [("kode", JNum 7); ("nama", JStr "SDN 1"); ("name", JStr "")]%string
  = JStr "SDN 1".
Proof.
  apply (extractLabel_preferred
           [("kode", JNum 7); ("nama", JStr "SDN 1"); ("name", JStr "")]%string
           ["name"]%string
           ["nameobj"; "id"; "fid"; "objectid"; "description"]%string
           "nama"%string); try reflexivity.
  intros k [<-|[]]. reflexivity.
Defined.

Lemma extractLabel_fallback_witness :
  extractLabelValueFromObj
    [("luas", JNum 0); ("kecamatan", JStr "Coblong"); ("kode", JNum 7)]%string
  = JStr "Coblong".
Proof.
  apply (extractLabel_fallback [("luas", JNum 0)]%string [("kode", JNum 7)]%string
           "kecamatan"%string (JStr "Coblong")).
  - repeat constructor; simpl; intuition discriminate.
  - intros k Hk. unfold preferredKeys in Hk. simpl in Hk.
    repeat (destruct Hk as [<-|Hk]; [reflexivity|]). destruct Hk.
  - intros k' v' [[= <- <-]|[]]. reflexivity.
  - reflexivity.
  - discriminate.
Defined.

Lemma extractLabel_none_witness :
  extractLabelValueFromObj [("foo", JStr ""); ("bar", JNum 0); ("baz", JNull)]%string
  = JUndefined.
Proof.
  apply extractLabel_none.
  intros k v [[= <- <-]|[[= <- <-]|[[= <- <-]|[]]]]; reflexivity.
Defined.

(** ** The properties table renderer, further *)

Section TableHelpers.

Local Open Scope string_scope.

Lemma own_emitted (props : ObjectLiteral) (key : string) :
  own props key = None -> own (emitted props) key = None.
Proof.
  induction props as [|[k v] props IH]; simpl; [reflexivity|].
  destruct (String.eqb_spec k key) as [->|Hne]; [discriminate|]. intros Hk.
  destruct (negb (reserved k)); simpl; [|now apply IH].
  destruct (String.eqb_spec k key); [contradiction | now apply IH].
Qed.

Lemma keys_emitted_In (props : ObjectLiteral) (key : string) :
  In key (keys (emitted props)) -> In key (keys props).
Proof.
  unfold keys, emitted. intros ([k v] & <- & Hin%filter_In)%in_map_iff.
  apply in_map_iff. exists (k, v). tauto.
Qed.

Lemma NoDup_emitted (props : ObjectLiteral) :
  List.NoDup (keys props) -> List.NoDup (keys (emitted props)).
Proof.
  induction props as [|[k v] props IH]; simpl; [constructor|].
  intros Hnd. apply List.NoDup_cons_iff in Hnd as [Hk Hnd].
  destruct (negb (reserved k)); simpl; [|now apply IH].
  constructor; [|now apply IH]. intros Hin. apply Hk.
  now apply keys_emitted_In.
Qed.

Lemma emitted_idem (props : ObjectLiteral) : emitted (emitted props) = emitted props.
Proof.
  unfold emitted. induction props as [|[k v] props IH]; simpl; [reflexivity|].
  destruct (negb (reserved k)) eqn:Hr; simpl; [|exact IH].
  now rewrite Hr, IH.
Qed.

End TableHelpers.

Section TableMore.

Variable String_of : JSValue -> string.

Local Open Scope string_scope.

(** For a mapping without an own property [hasOwnProperty], the result is
    the table whose rows are, in key order, those of the properties other
    than [WKT_GEOMETRY] and [ogc_fid], one row each, shaded at the even
    positions among the rows. *)
Theorem propertiesTableDiv_table (props : ObjectLiteral) :
  List.NoDup (keys props) ->
  own props "hasOwnProperty" = None ->
  propertiesTableDiv String_of props
  = Normal ("<table style='border: 1px solid #dddddd'>"
            ++ String.concat "" (rows_from String_of 0 (emitted props))
            ++ "</table>")
  /\ length (rows_from String_of 0 (emitted props)) = length (emitted props)
  /\ (forall key value, In (key, value) (emitted props) <->
        In (key, value) props /\ key <> "WKT_GEOMETRY" /\ key <> "ogc_fid").
Proof.
  intros Hnd Hown. split; [now apply propertiesTableDiv_rows|].
  split; [apply rows_from_length|].
  intros key value. unfold emitted. rewrite filter_In. cbn [fst]. unfold reserved.
  rewrite negb_true_iff, orb_false_iff, !String.eqb_neq. tauto.
Qed.

(** The call returns a table exactly when the mapping has no own property
    named [hasOwnProperty]; with one it throws a [TypeError], whatever else
    the mapping holds. *)
Theorem propertiesTableDiv_normal_iff (props : ObjectLiteral) :
  List.NoDup (keys props) ->
  ((exists table, propertiesTableDiv String_of props = Normal table)
   <-> ~ In "hasOwnProperty" (keys props))
  /\ (In "hasOwnProperty" (keys props) ->
      propertiesTableDiv String_of props
      = Throw (Error "TypeError" "props.hasOwnProperty is not a function")).
Proof.
  intros Hnd. split; [|apply propertiesTableDiv_shadowed]. split.
  - intros [table Ht] Hin.
    rewrite (propertiesTableDiv_shadowed String_of props Hin) in Ht. discriminate.
  - intros Hno. eexists. apply propertiesTableDiv_rows; [exact Hnd|].
    destruct (own props "hasOwnProperty") as [v|] eqn:Hv; [|reflexivity].
    destruct Hno. apply own_In in Hv. apply in_map_iff. now exists ("hasOwnProperty", v).
Qed.

(** The reserved properties leave no trace: the table of a mapping is the
    table of the mapping without them. *)
Theorem propertiesTableDiv_ignores_reserved (props : ObjectLiteral) :
  List.NoDup (keys props) ->
  own props "hasOwnProperty" = None ->
  propertiesTableDiv String_of (emitted props) = propertiesTableDiv String_of props.
Proof.
  intros Hnd Hown.
  rewrite (propertiesTableDiv_rows String_of props Hnd Hown).
  rewrite (propertiesTableDiv_rows String_of (emitted props));
    [now rewrite emitted_idem | now apply NoDup_emitted | now apply own_emitted].
Qed.

End TableMore.

Lemma propertiesTableDiv_table_witness :
  propertiesTableDiv (fun _ => "v"%string)
    [("a", JNull); ("ogc_fid", JNull); ("b", JNull)]%string
  = Normal ("<table style='border: 1px solid #dddddd'>"
            ++ String.concat ""
                 (rows_from (fun _ => "v"%string) 0
                    (emitted [("a", JNull); ("ogc_fid", JNull); ("b", JNull)]%string))
            ++ "</table>")%string.
Proof.
  apply (propertiesTableDiv_table (fun _ => "v"%string)
           [("a", JNull); ("ogc_fid", JNull); ("b", JNull)]%string).
  - repeat constructor; simpl; intuition discriminate.
  - reflexivity.
Defined.

Lemma propertiesTableDiv_normal_iff_witness :
  propertiesTableDiv (fun _ => "v"%string)
    [("a"%string, JNull); ("hasOwnProperty"%string, JBool true)]
  = Throw (Error "TypeError" "props.hasOwnProperty is not a function").
Proof.
  apply (proj2 (propertiesTableDiv_normal_iff (fun _ => "v"%string)
                  [("a"%string, JNull); ("hasOwnProperty"%string, JBool true)]
                  ltac:(repeat constructor; simpl; intuition discriminate))).
  simpl. tauto.
Defined.

Lemma propertiesTableDiv_ignores_reserved_witness :
  propertiesTableDiv (fun _ => "v"%string)
    (emitted [("WKT_GEOMETRY", JStr "POINT"); ("a", JNull)]%string)
  = propertiesTableDiv (fun _ => "v"%string)
      [("WKT_GEOMETRY", JStr "POINT"); ("a", JNull)]%string.
Proof.
  apply propertiesTableDiv_ignores_reserved.
  - repeat constructor; simpl; intuition discriminate.
  - reflexivity.
Defined.

(** ** The coordinate normalizer, further *)

Section NormalizerMore.

Context {num : Type} `{JSNumber num}.

(** Normalizing is idempotent: the coordinates a call returned, clicked at
    the same longitude again, come back as they are (in a new array), with
    the loop condition evaluated once. *)
Theorem getMapLibreCoordinate_idempotent (fuel : nat) (ll : LngLat num)
  (f0 : MapGeoJSONFeature) (fs : list MapGeoJSONFeature) (c0 : num)
  (rest : list num) (h h' : gmap loc (list num)) (p : Picked) :
  h !! geometry_coordinates f0 = Some (c0 :: rest) ->
  getMapLibreCoordinate fuel (mkEvent ll (Some (f0 :: fs))) h
  = (h', Some (Normal (Some p))) ->
  exists c0',
    h' !! coordinates p = Some (c0' :: rest)
    /\ forall (fuel' : nat) (props : ObjectLiteral) (fs' : list MapGeoJSONFeature),
         getMapLibreCoordinate (S fuel')
           (mkEvent ll (Some (mkFeature (coordinates p) props :: fs'))) h'
         = (<[fresh (dom h') := c0' :: rest]> h',
            Some (Normal (Some (mkPicked (fresh (dom h')) props)))).
Proof.
  intros Hc. rewrite (getMapLibreCoordinate_hit fuel ll f0 fs c0 rest h Hc).
  destruct (wrap fuel (lng ll) c0) as [c0' done] eqn:Hw. cbn [fst snd].
  destruct done; [|discriminate]. intros [= <- <-]. cbn [coordinates].
  exists c0'. split; [apply lookup_insert_eq|]. intros fuel' props fs'.
  rewrite (getMapLibreCoordinate_hit (S fuel') ll _ fs' c0' rest)
    by apply lookup_insert_eq.
  cbn [wrap properties]. now rewrite (wrap_exit fuel (lng ll) c0 c0' Hw).
Qed.

(** A feature whose coordinate array is empty is returned as a new empty
    array: its first element reads [undefined] and the loop does not run. *)
Theorem getMapLibreCoordinate_empty_coordinates (fuel : nat) (ll : LngLat num)
  (f0 : MapGeoJSONFeature) (fs : list MapGeoJSONFeature)
  (h : gmap loc (list num)) :
  h !! geometry_coordinates f0 = Some [] ->
  getMapLibreCoordinate (S fuel) (mkEvent ll (Some (f0 :: fs))) h
  = (<[fresh (dom h) := []]> h,
     Some (Normal (Some (mkPicked (fresh (dom h)) (properties f0))))).
Proof.
  intros Hc. unfold getMapLibreCoordinate.
  cbn [features lngLat lookup list_lookup]. rewrite Hc.
  now rewrite adjust_loop_empty by apply lookup_insert_eq.
Qed.

End NormalizerMore.

Lemma getMapLibreCoordinate_idempotent_witness :
  exists c0',
    (<[2%positive := [190; 5]%float]> (point_heap (-170) 5)%float : gmap loc (list float))
      !! 2%positive = Some [c0'; 5%float]
    /\ forall (fuel' : nat) (props : ObjectLiteral) (fs' : list MapGeoJSONFeature),
         getMapLibreCoordinate (S fuel')
           (mkEvent (mkLngLat 170 0)%float (Some (mkFeature 2%positive props :: fs')))
           (<[2%positive := [190; 5]%float]> (point_heap (-170) 5)%float)
         = (<[fresh (dom (<[2%positive := [190; 5]%float]>
                            (point_heap (-170) 5)%float))
              := [c0'; 5%float]]>
              (<[2%positive := [190; 5]%float]> (point_heap (-170) 5)%float),
            Some (Normal (Some (mkPicked
              (fresh (dom (<[2%positive := [190; 5]%float]>
                             (point_heap (-170) 5)%float))) props)))).
Proof.
  apply (getMapLibreCoordinate_idempotent 2 (mkLngLat 170 0)%float
           (mkFeature 1%positive []) [] (-170)%float [5%float]
           (point_heap (-170) 5)%float
           (<[2%positive := [190; 5]%float]> (point_heap (-170) 5)%float)
           (mkPicked 2%positive [])).
  - reflexivity.
  - vm_compute. reflexivity.
Defined.

Lemma getMapLibreCoordinate_empty_coordinates_witness :
  getMapLibreCoordinate 1 (mkEvent (mkLngLat 170 0)%float
                             (Some [mkFeature 1%positive []]))
    ({[ 1%positive := [] ]} : gmap loc (list float))
  = (<[fresh (dom ({[ 1%positive := [] ]} : gmap loc (list float))) := []]>
       {[ 1%positive := [] ]},
     Some (Normal (Some (mkPicked
       (fresh (dom ({[ 1%positive := [] ]} : gmap loc (list float)))) [])))).
Proof.
  apply (getMapLibreCoordinate_empty_coordinates 0 (mkLngLat 170 0)%float
           (mkFeature 1%positive []) [] {[ 1%positive := [] ]}).
  reflexivity.
Defined.

Section NormalizerNaN.

Local Open Scope float_scope.

Lemma gt_180_nan (click c0 : float) :
  PrimFloat.is_nan click = true \/ PrimFloat.is_nan c0 = true ->
  num_gt (num_abs (num_sub click c0)) (num_lit 180) = false.
Proof.
  intros Hn. cbn [num_gt num_abs num_sub IEEE].
  rewrite FloatAxioms.ltb_spec, FloatAxioms.abs_spec, FloatAxioms.sub_spec.
  assert (SF64sub (Prim2SF click) (Prim2SF c0) = S754_nan) as ->.
  { destruct Hn as [Hn|Hn]; apply is_nan_spec in Hn; rewrite Hn;
      [reflexivity | now destruct (Prim2SF click)]. }
  unfold SFltb. now destruct (Prim2SF (num_lit 180)).
Qed.

(** When the click longitude or the feature longitude is NaN the loop does
    not run: every comparison with NaN is false, and the coordinates are
    returned as they are, in a new array. *)
Theorem getMapLibreCoordinate_nan (fuel : nat) (ll : LngLat float)
  (f0 : MapGeoJSONFeature) (fs : list MapGeoJSONFeature) (c0 : float)
  (rest : list float) (h : gmap loc (list float)) :
  PrimFloat.is_nan (lng ll) = true \/ PrimFloat.is_nan c0 = true ->
  h !! geometry_coordinates f0 = Some (c0 :: rest) ->
  getMapLibreCoordinate (S fuel) (mkEvent ll (Some (f0 :: fs))) h
  = (<[fresh (dom h) := c0 :: rest]> h,
     Some (Normal (Some (mkPicked (fresh (dom h)) (properties f0))))).
Proof.
  intros Hn Hc. rewrite (getMapLibreCoordinate_hit (S fuel) ll f0 fs c0 rest h Hc).
  cbn [wrap]. now rewrite (gt_180_nan (lng ll) c0 Hn).
Qed.

End NormalizerNaN.

Lemma getMapLibreCoordinate_nan_witness :
  getMapLibreCoordinate 1 (point_event PrimFloat.nan 0%float)
    (point_heap 100%float 5%float)
  = (<[fresh (dom (point_heap 100%float 5%float)) := [100; 5]%float]>
       (point_heap 100%float 5%float),
     Some (Normal (Some (mkPicked (fresh (dom (point_heap 100%float 5%float))) [])))).
Proof.
  apply (getMapLibreCoordinate_nan 0 (mkLngLat PrimFloat.nan 0%float)
           (mkFeature 1%positive []) [] 100%float [5%float]).
  - left. reflexivity.
  - reflexivity.
Defined.
